(** * trpc-svelte-query-adapter: key codec, proxy dispatcher and binders

    A shallow embedding of the adapter module (the file that defines
    [getQueryKeyInternal], [utilProcedures], [createUtilsProxy],
    [procedures], [procedureExts] and [svelteQueryWrapper]) together
    with the properties its specification states about it.

    JavaScript values are an inductive type; plain objects are finite
    maps from property names to values, so that two objects with the same
    properties are equal whatever the order they were written in (the
    cache hashes keys with sorted properties).  Calls into the external
    collaborators (the remote-procedure client, the query cache, the
    console, the caller's handlers) are recorded as events. *)

From Stdlib Require Import Ascii String.
From stdpp Require Import gmap strings list fin_maps pretty.

Local Open Scope string_scope.
Local Set Warnings "-register-all".

(** ** JavaScript values *)

Module JS.

(** The values that travel through the adapter.  [VSkipToken] is the
    [skipToken] symbol imported from the query library, [VStore v] an
    object with a callable [subscribe] whose current content is [v]
    (a svelte store; its methods are not listed as properties) and
    [VPromise n] a promise identified by [n].  Numbers are the integral
    ones. *)
Inductive value : Type :=
  | VUndefined
  | VNull
  | VBool (b : bool)
  | VNum (n : Z)
  | VStr (s : string)
  | VSkipToken
  | VArr (l : list value)
  | VObj (m : gmap string value)
  | VStore (current : value)
  | VPromise (id : nat).

(** [!!v]: the values that are not falsy. *)
Definition truthy (v : value) : bool :=
  match v with
  | VUndefined | VNull => false
  | VBool b => b
  | VNum n => negb (n =? 0)%Z
  | VStr s => negb (String.eqb s "")
  | _ => true
  end.

(** [typeof v !== 'undefined'] *)
Definition is_defined (v : value) : bool :=
  match v with VUndefined => false | _ => true end.

(** [a ?? b] *)
Definition nullish (a b : value) : value :=
  match a with VUndefined | VNull => b | _ => a end.

(** [o?.k]: [undefined] on [null] and [undefined], the property
    otherwise; only plain objects carry properties here. *)
Definition opt_get (o : value) (k : string) : value :=
  match o with
  | VObj m => default VUndefined (m !! k)
  | _ => VUndefined
  end.

(** The own enumerable properties copied by an object spread [...v]:
    all of them for an object, the indexed elements of an array and the
    indexed characters of a string, none for [undefined], [null],
    booleans, numbers, symbols and promises. *)
Definition indexed (l : list value) : gmap string value :=
  list_to_map (imap (λ i v, (pretty i, v)) l).

Definition chars (s : string) : list value :=
  (λ c, VStr (String c EmptyString)) <$> list_ascii_of_string s.

Definition spread (v : value) : gmap string value :=
  match v with
  | VObj m => m
  | VArr l => indexed l
  | VStr s => indexed (chars s)
  | _ => ∅
  end.

(** [a && b] *)
Definition js_and (a b : value) : value := if truthy a then b else a.

(** svelte's [get(store)] *)
Definition store_get (v : value) : value :=
  match v with VStore current => current | _ => VUndefined end.

(** What an expression evaluates to: a value or a thrown error. *)
Inductive error : Type := TypeError (msg : string).

Inductive completion (A : Type) : Type :=
  | Normal (a : A)
  | Throw (e : error).
Global Arguments Normal {A} a.
Global Arguments Throw {A} e.

Definition cbind {A B} (c : completion A) (k : A → completion B) : completion B :=
  match c with
  | Normal a => k a
  | Throw e => Throw e
  end.

(** [{ ...a, ...b }]: later properties win. *)
Definition assign (a b : gmap string value) : gmap string value := b ∪ a.

End JS.
Export JS.

Notation "'let!' x ':=' c 'in' k" := (cbind c (λ x, k))
  (at level 10, x name, c at level 100, k at level 200, only parsing).

(** ** Key codec *)

Inductive QueryType : Type := TQuery | TInfinite | TAny.

Definition QueryType_str (t : QueryType) : string :=
  match t with
  | TQuery => "query"
  | TInfinite => "infinite"
  | TAny => "any"
  end.

(** [isObject]: [!!value && !Array.isArray(value) && typeof value === 'object'] *)
Definition isObject (v : value) : bool :=
  match v with
  | VObj _ | VStore _ | VPromise _ => true
  | _ => false
  end.

(** [part.split('.')]: the pieces between the dots; never empty. *)
Fixpoint split_dot_aux (acc : string) (s : string) : list string :=
  match s with
  | EmptyString => [String.rev acc]
  | String c rest =>
      if Ascii.eqb c "."%char
      then String.rev acc :: split_dot_aux EmptyString rest
      else split_dot_aux (String c acc) rest
  end.

Definition split_dot (s : string) : list string := split_dot_aux EmptyString s.

(** [path.flatMap((part) => part.split('.'))] *)
Definition splitPath (path : list string) : list string :=
  mbind split_dot path.

(** ['k' in v] for the inputs the codec tests: own properties of a plain
    object. *)
Definition has_prop (v : value) (k : string) : bool :=
  match v with
  | VObj m => if m !! k is Some _ then true else false
  | _ => false
  end.

(** The first element of a key: the array of atomic segments. *)
Definition path_value (segments : list string) : value := VArr (VStr <$> segments).

(** [!type || type === 'any']; every member of [QueryType] is a
    non-empty string, [None] is an omitted type. *)
Definition type_is_any (type : option QueryType) : bool :=
  match type with
  | None | Some TAny => true
  | Some _ => false
  end.

(** [type === 'infinite'] *)
Definition type_is_infinite (type : option QueryType) : bool :=
  if type is Some TInfinite then true else false.

(** [input !== skipToken] *)
Definition is_skipToken (v : value) : bool :=
  if v is VSkipToken then true else false.

Definition getQueryKeyInternal
    (path : list string) (input : value) (type : option QueryType) : value :=
  let splitPath := splitPath path in
  if negb (truthy input) && type_is_any type then
    match splitPath with
    | [] => VArr []
    | _ :: _ => VArr [path_value splitPath]
    end
  else if type_is_infinite type && isObject input
          && (has_prop input "direction" || has_prop input "cursor") then
    let inputWithoutCursorAndDirection :=
      delete "direction" (delete "cursor" (spread input)) in
    VArr [path_value splitPath;
          VObj {[ "input" := VObj inputWithoutCursorAndDirection;
                  "type" := VStr "infinite" ]}]
  else
    VArr [path_value splitPath;
          VObj (assign
                  (if is_defined input && negb (is_skipToken input)
                   then {[ "input" := input ]} else ∅)
                  (match type with
                   | None | Some TAny => ∅
                   | Some t => {[ "type" := VStr (QueryType_str t) ]}
                   end))].

Definition getMutationKeyInternal (path : list string) : value :=
  getQueryKeyInternal path VUndefined (Some TAny).

(** The exported [getQueryKey], for a leaf whose [_def().path] is [path]:
    [getQueryKeyInternal(path, input, type ?? 'any')]. *)
Definition getQueryKey (path : list string) (input : value)
    (type : option QueryType) : value :=
  getQueryKeyInternal path input (Some (default TAny type)).

(** ** What the adapter does to its collaborators *)

(** Calls on the remote-procedure client ([targetProc] resolved by walking
    [path] from the client, then [.method(args)]), on the console, on the
    query cache, on the lazy [enabled] store and on the caller's
    subscription handlers; [n] numbers the subscriptions an effect opens. *)
Inductive event : Type :=
  | ClientCall (path : list string) (method : string) (args : list value)
  | ConsoleError (msg : string)
  | CacheSetQueryData (queryKey data : value)
  | EnabledSet (b : bool)
  | Subscribe (n : nat) (path : list string) (input : value)
  | Unsubscribe (n : nat)
  | Handler (n : nat) (name : string) (args : list value).

(** ** Operation registry *)

Inductive procedure : Type :=
  | Pquery | PserverQuery | PinfiniteQuery | PserverInfiniteQuery
  | Pmutate | Psubscribe | PqueryKey | Pcontext | Putils
  | Pqueries | PserverQueries.

(** The [Procedure] table: the name under which each meta-operation is
    exposed. *)
Definition Procedure (p : procedure) : string :=
  match p with
  | Pquery => "createQuery"
  | PserverQuery => "createServerQuery"
  | PinfiniteQuery => "createInfiniteQuery"
  | PserverInfiniteQuery => "createServerInfiniteQuery"
  | Pmutate => "createMutation"
  | Psubscribe => "createSubscription"
  | PqueryKey => "getQueryKey"
  | Pcontext => "createContext"
  | Putils => "createUtils"
  | Pqueries => "createQueries"
  | PserverQueries => "createServerQueries"
  end.

(** The own keys of the [procedures] registry, as its literal lists
    them. *)
Definition procedures_keys : list (string * procedure) :=
  (λ p, (Procedure p, p)) <$>
    [PqueryKey; Pquery; PserverQuery; PinfiniteQuery; PserverInfiniteQuery;
     Pmutate; Psubscribe; Pqueries; PserverQueries; Putils; Pcontext].

(** A lookup in a table of own properties: [hasOwn(table, key)] holds
    when it finds one. *)
Fixpoint own {A} (table : list (string * A)) (key : string) : option A :=
  match table with
  | [] => None
  | (k, a) :: rest => if String.eqb k key then Some a else own rest key
  end.

(** [procedures[key](ctx)]: every factory returns the callable it
    exposes, except that the batch-query and utils factories return
    nothing off the root ([if (ctx.path.length !== 0) return;]). *)
Definition procedures (p : procedure) (path : list string) : option procedure :=
  match p with
  | Pqueries | PserverQueries | Putils | Pcontext =>
      if path is [] then Some p else None
  | _ => Some p
  end.

(** [procedureExts]: the meta-operations that carry an [opts] identity
    helper. *)
Definition procedureExts : list (string * list string) :=
  [ (Procedure Pquery, ["opts"]);
    (Procedure PinfiniteQuery, ["opts"]);
    (Procedure Pmutate, ["opts"]);
    (Procedure Psubscribe, ["opts"]) ].

Definition hasOwn_ext (proc key : string) : bool :=
  match own procedureExts proc with
  | Some names => bool_decide (key ∈ names)
  | None => false
  end.

(** ** Path resolver: the [apply] trap of [svelteQueryWrapper] *)

(** [this.path.pop() ?? '']: the last segment and the shortened path. *)
Definition pop (path : list string) : string * list string :=
  match reverse path with
  | [] => ("", [])
  | last :: front => (last, reverse front)
  end.

(** What a call on the dispatcher returns: a plain value, or what the
    callable of a meta-operation bound at [path] returns for [argList]. *)
Inductive dispatched : Type :=
  | DValue (v : value)
  | DBound (p : procedure) (path : list string) (argList : list value).

Record applied : Type := Applied {
  outcome : completion dispatched;
  trace : list event;
  path_after : list string   (* [this.path], which the pops shorten *)
}.

Definition unhandled_message (path : list string) (key : string) : string :=
  "[trpc-svelte-query-adapter] Unhandled proxy path: "
  +:+ String.concat "." path +:+ "." +:+ key.

Definition apply (path : list string) (argList : list value) : applied :=
  let '(key, path1) := pop path in
  if String.eqb key "_def" then
    Applied (Normal (DValue (VObj {[ "path" := path_value path1 ]}))) [] path1
  else
    match own procedures_keys key with
    | Some p =>
        match procedures p path1 with
        | Some callable => Applied (Normal (DBound callable path1 argList)) [] path1
        | None =>
            (* calling the [undefined] the factory returned *)
            Applied (Throw (TypeError "procedures[key](...) is not a function")) [] path1
        end
    | None =>
        let '(proc, path2) := pop path1 in
        if hasOwn_ext proc key then
          Applied (Normal (DValue (default VUndefined (head argList)))) [] path2
        else
          Applied (Normal (DValue VUndefined))
                  [ConsoleError (unhandled_message path2 key)] path2
    end.

(** ** Query and infinite-query binders *)

(** [isSvelteStore]: [typeof obj === 'object' && 'subscribe' in obj &&
    typeof obj.subscribe === 'function'].  On [null] the [in] test
    throws. *)
Definition isSvelteStore (obj : value) : completion bool :=
  match obj with
  | VNull => Throw (TypeError "Cannot use 'in' operator to search for 'subscribe' in null")
  | VStore _ => Normal true
  | _ => Normal false
  end.

(** What the cache hands to a fetch function. *)
Record fetch_context : Type := FetchContext {
  pageParam : value;
  signal : value;
  direction : value
}.

(** A cache-query descriptor: its data-valued options ([queryKey],
    [initialPageParam], [enabled], [staleTime] and whatever the caller's
    options spread into it) and the client call its [queryFn] issues. *)
Record descriptor : Type := Descriptor {
  options : gmap string value;
  queryFn : fetch_context → event
}.

(** The value a derived store hands to its callback for one source:
    [None] is the [blank] symbol of [blankStore]. *)
Definition slot : Type := option value.

(** [!isBlank($x) ? $x : fallback] *)
Definition unblank (s : slot) (fallback : value) : value := default fallback s.

(** The lazy [enabled] source: [writable(false)] or [blankStore]. *)
Inductive enabled_source : Type := EnabledBlank | EnabledWritable (initial : bool).

(** [derived([input, opts, enabled], callback)]: which sources are
    stores, and the callback. *)
Record derived_descriptor : Type := Derived {
  src_input : option value;
  src_opts : option value;
  src_enabled : enabled_source;
  derive : slot → slot → slot → descriptor
}.

(** An [async] function body: it returns, performs an effect and goes
    on, or awaits a value and goes on with what it resolved to. *)
Inductive async (A : Type) : Type :=
  | Ret (a : A)
  | Do (e : event) (k : async A)
  | Await (awaited : value) (k : value → async A).
Global Arguments Ret {A} a.
Global Arguments Do {A} e k.
Global Arguments Await {A} awaited k.

(** Where a run of an [async] body stands: finished, or suspended on an
    awaited value with the rest of the body. *)
Inductive suspension (A : Type) : Type :=
  | Finished (a : A)
  | Suspended (awaited : value) (k : value → async A).
Global Arguments Finished {A} a.
Global Arguments Suspended {A} awaited k.

(** Run a body up to its first [await]: the effects performed so far,
    and where it stands.  An [await] always suspends. *)
Fixpoint run {A} (m : async A) : list event * suspension A :=
  match m with
  | Ret a => ([], Finished a)
  | Do e k => let '(es, r) := run k in (e :: es, r)
  | Await d k => ([], Suspended d k)
  end.




(** What a binder returns: an observer over a static descriptor, over a
    derived one, or the pair of a derived observer and its activation
    function. *)
Inductive binding : Type :=
  | Static (d : descriptor)
  | Reactive (d : derived_descriptor)
  | LazyPair (d : derived_descriptor) (resolver : value → async unit).

(** [{ ...opts?.trpc, ...(shouldAbortOnUnmount && { signal }) }] *)
Definition trpcSpecificOptions (opts shouldAbortOnUnmount signal : value) : value :=
  VObj (assign (spread (opt_get opts "trpc"))
               (spread (js_and shouldAbortOnUnmount (VObj {[ "signal" := signal ]})))).

(** [opts?.trpc?.abortOnUnmount ?? abortOnUnmount] *)
Definition shouldAbortOnUnmount (opts abortOnUnmount : value) : value :=
  nullish (opt_get (opt_get opts "trpc") "abortOnUnmount") abortOnUnmount.

(** [...(!isBlank($enabled) && { enabled: $enabled && (newOpts?.enabled ?? true) })] *)
Definition enabled_option (enabled : slot) (newOpts : value) : gmap string value :=
  match enabled with
  | None => ∅
  | Some e => {[ "enabled" := js_and e (nullish (opt_get newOpts "enabled") (VBool true)) ]}
  end.

(** [{ ...(input ?? {}), ...(pageParam ? { cursor: pageParam } : {}), direction }] *)
Definition actualInput (input : value) (ctx : fetch_context) : value :=
  VObj (<["direction" := direction ctx]>
          (assign (spread (nullish input (VObj ∅)))
                  (if truthy (pageParam ctx)
                   then {[ "cursor" := pageParam ctx ]} else ∅))).

(** [opts?.initialCursor ?? null] *)
Definition initialPageParam (opts : value) : value :=
  nullish (opt_get opts "initialCursor") VNull.

Section Binders.
(** The dispatch context of one leaf resolution.  [path] is what the
    node's [path] array holds when the binder is called: the keys are
    computed from it then, while the fetch closures walk the array when
    they run, and are given here as they run on an array that still
    holds [path]. *)
Variable path : list string.
Variable abortOnUnmount : value.

(** The activation function of a lazy query. *)
Definition query_resolver (baseQueryKey data : value) : async unit :=
  if truthy data then
    Await data (λ awaited,
      Do (CacheSetQueryData baseQueryKey awaited)
         (Do (EnabledSet true) (Ret ())))
  else Do (EnabledSet true) (Ret ()).

(** [procedures[Procedure.query]] *)
Definition createQuery (procedureInput opts : value) : completion binding :=
  let! isOptsStore := isSvelteStore opts in
  let! isInputStore := isSvelteStore procedureInput in
  let currentOpts := if isOptsStore then store_get opts else opts in
  let baseQueryKey :=
    getQueryKeyInternal path (if isInputStore then VObj ∅ else procedureInput)
                        (Some TQuery) in
  let lazy := truthy (opt_get currentOpts "lazy") in
  if negb isInputStore && negb isOptsStore && negb lazy then
    let abort := shouldAbortOnUnmount currentOpts abortOnUnmount in
    let queryKey := getQueryKeyInternal path procedureInput (Some TQuery) in
    Normal (Static {|
      options := <["queryKey" := queryKey]> (spread currentOpts);
      queryFn := λ ctx,
        ClientCall path "query"
          [procedureInput; trpcSpecificOptions currentOpts abort (signal ctx)]
    |})
  else
    let abort := shouldAbortOnUnmount currentOpts abortOnUnmount in
    let enabled := if lazy then EnabledWritable false else EnabledBlank in
    let query := {|
      src_input := if isInputStore then Some procedureInput else None;
      src_opts := if isOptsStore then Some opts else None;
      src_enabled := enabled;
      derive := λ input' opts' enabled',
        let currentProcedureInputVal := unblank input' procedureInput in
        let newOpts := unblank opts' currentOpts in
        let queryKey := getQueryKeyInternal path currentProcedureInputVal (Some TQuery) in
        {| options :=
             assign (<["queryKey" := queryKey]> (spread newOpts))
                    (enabled_option enabled' newOpts);
           queryFn := λ ctx,
             ClientCall path "query"
               [currentProcedureInputVal;
                trpcSpecificOptions newOpts abort (signal ctx)] |}
    |} in
    Normal (if lazy then LazyPair query (query_resolver baseQueryKey)
          else Reactive query).

(** The activation function of a lazy infinite query. *)
Definition infiniteQuery_resolver (baseQueryKey currentOpts data : value) : async unit :=
  if truthy data then
    Await data (λ awaited,
      Do (CacheSetQueryData baseQueryKey
            (VObj {[ "pages" := VArr [awaited];
                     "pageParams" := VArr [initialPageParam currentOpts] ]}))
         (Do (EnabledSet true) (Ret ())))
  else Do (EnabledSet true) (Ret ()).

(** [procedures[Procedure.infiniteQuery]] *)
Definition createInfiniteQuery (procedureInput opts : value) : completion binding :=
  let! isOptsStore := isSvelteStore opts in
  let! isInputStore := isSvelteStore procedureInput in
  let currentOpts := if isOptsStore then store_get opts else opts in
  let baseQueryKey :=
    getQueryKeyInternal path (if isInputStore then VObj ∅ else procedureInput)
                        (Some TInfinite) in
  let lazy := truthy (opt_get currentOpts "lazy") in
  if negb isInputStore && negb isOptsStore && negb lazy then
    let abort := shouldAbortOnUnmount currentOpts abortOnUnmount in
    let queryKey := getQueryKeyInternal path procedureInput (Some TInfinite) in
    Normal (Static {|
      options :=
        <["queryKey" := queryKey]>
          (<["initialPageParam" := initialPageParam currentOpts]> (spread currentOpts));
      queryFn := λ ctx,
        ClientCall path "query"
          [actualInput procedureInput ctx;
           trpcSpecificOptions currentOpts abort (signal ctx)]
    |})
  else
    let abort := shouldAbortOnUnmount currentOpts abortOnUnmount in
    let enabled := if lazy then EnabledWritable false else EnabledBlank in
    let query := {|
      src_input := if isInputStore then Some procedureInput else None;
      src_opts := if isOptsStore then Some opts else None;
      src_enabled := enabled;
      derive := λ input' opts' enabled',
        let currentProcedureInputVal := unblank input' procedureInput in
        let newOpts := unblank opts' currentOpts in
        let queryKey :=
          getQueryKeyInternal path currentProcedureInputVal (Some TInfinite) in
        {| options :=
             assign (<["queryKey" := queryKey]>
                       (<["initialPageParam" := initialPageParam newOpts]>
                          (spread newOpts)))
                    (enabled_option enabled' newOpts);
           queryFn := λ ctx,
             ClientCall path "query"
               [actualInput currentProcedureInputVal ctx;
                trpcSpecificOptions newOpts abort (signal ctx)] |}
    |} in
    Normal (if lazy then LazyPair query (infiniteQuery_resolver baseQueryKey currentOpts)
          else Reactive query).
End Binders.

(** ** Cache-control ("utils") tree *)

Inductive util : Type :=
  | Ufetch | UfetchInfinite | Uprefetch | UprefetchInfinite | UensureData
  | Uinvalidate | Ureset | Urefetch | Ucancel
  | UsetData | UsetInfiniteData | UgetData | UgetInfiniteData
  | UsetMutationDefaults | UgetMutationDefaults | UisMutating.

(** The own keys of [utilProcedures]. *)
Definition utilProcedures : list (string * util) :=
  [ ("fetch", Ufetch);
    ("fetchInfinite", UfetchInfinite);
    ("prefetch", Uprefetch);
    ("prefetchInfinite", UprefetchInfinite);
    ("ensureData", UensureData);
    ("invalidate", Uinvalidate);
    ("reset", Ureset);
    ("refetch", Urefetch);
    ("cancel", Ucancel);
    ("setData", UsetData);
    ("setInfiniteData", UsetInfiniteData);
    ("getData", UgetData);
    ("getInfiniteData", UgetInfiniteData);
    ("setMutationDefaults", UsetMutationDefaults);
    ("getMutationDefaults", UgetMutationDefaults);
    ("isMutating", UisMutating) ].

Definition getQueryType (utilName : util) : QueryType :=
  match utilName with
  | Ufetch | UensureData | Uprefetch | UgetData | UsetData => TQuery
  | UfetchInfinite | UprefetchInfinite | UgetInfiniteData | UsetInfiniteData => TInfinite
  | UsetMutationDefaults | UgetMutationDefaults | UisMutating
  | Ucancel | Uinvalidate | Urefetch | Ureset => TAny
  end.

(** [queryKey[1]?.input] *)
Definition key_input (queryKey : value) : value :=
  match queryKey with
  | VArr (_ :: o :: _) => opt_get o "input"
  | _ => VUndefined
  end.


(** What a property access on a node of the utils tree yields: the
    client handle, a cache operation bound to the node's path, or the
    nested node. *)
Inductive utils_got (Client : Type) : Type :=
  | GotClient (trpcProxyClient : Client)
  | GotUtil (u : util) (path : list string)
  | GotNode (path : list string).
Global Arguments GotClient {Client} trpcProxyClient.
Global Arguments GotUtil {Client} u path.
Global Arguments GotNode {Client} path.

Section Utils.
Context {Client : Type}.
(** [ctx.trpcProxyClient] *)
Variable trpcProxyClient : Client.

(** The [get] trap of [createUtilsProxy] at the node of path
    [this_path]. *)
Definition createUtilsProxy_get (this_path : list string) (key : string)
    : utils_got Client :=
  if String.eqb key "client" then GotClient trpcProxyClient
  else match own utilProcedures key with
       | Some u => GotUtil u this_path
       | None => GotNode (this_path ++ [key])%list
       end.

(** A chain of property accesses from a node; only nodes are proxies,
    so a chain that goes on past a client or a cache operation leaves
    the tree. *)
Fixpoint utils_access (node : list string) (keys : list string)
    : option (utils_got Client) :=
  match keys with
  | [] => Some (GotNode node)
  | key :: rest =>
      match createUtilsProxy_get node key with
      | GotNode p => utils_access p rest
      | got => if rest is [] then Some got else None
      end
  end.
End Utils.

(** ** Subscription binder *)

(** What the transport delivers to a subscription. *)
Inductive transport_event : Type :=
  | Started
  | Data (data : value)
  | Errored (err : value).

(** Which handlers the caller supplied in [opts]. *)
Record handlers : Type := Handlers {
  onStarted : bool;
  onData : bool;
  onError : bool
}.

(** A value as a dependency of an effect.  [===] compares primitives by
    value and objects by identity, which a [value] does not carry: an
    object is known here by the [address] it lives at. *)
Inductive dep : Type :=
  | Primitive (v : value)
  | Object (address : nat).

(** [a === b] *)
Definition strict_eq (a b : dep) : bool :=
  match a, b with
  | Primitive x, Primitive y =>
      match x, y with
      | VUndefined, VUndefined | VNull, VNull | VSkipToken, VSkipToken => true
      | VBool x, VBool y => Bool.eqb x y
      | VNum x, VNum y => (x =? y)%Z
      | VStr x, VStr y => String.eqb x y
      | _, _ => false
      end
  | Object x, Object y => Nat.eqb x y
  | _, _ => false
  end.

(** The dependency a variable holding [v] gives: [v] itself when it is
    a primitive, otherwise the object at [address]. *)
Definition dep_of (address : nat) (v : value) : dep :=
  match v with
  | VUndefined | VNull | VBool _ | VNum _ | VStr _ | VSkipToken => Primitive v
  | _ => Object address
  end.

(** [new_values.some((value, i) => value !== values[i])] *)
Definition deps_changed (new_values values : list dep) : bool :=
  existsb id
    (imap (λ i value,
             negb (strict_eq value (default (Primitive VUndefined) (values !! i))))
          new_values).

(** The variables of one [effect] and of the subscriptions its callback
    has opened: the [isStopped] flag of each, the [cleanup] closure (the
    subscription it tears down) and the last [values]. *)
Record effect_state : Type := EffectState {
  isStopped : list bool;
  cleanup : option nat;
  values : list dep
}.

Definition effect_init : effect_state := EffectState [] None [].

(** What happens to a mounted subscription: the component updates (and
    [deps()] returns [new_values]), the component is destroyed, or the
    transport delivers an event to the [n]-th subscription opened. *)
Inductive action : Type :=
  | AfterUpdate (new_values : list dep)
  | Destroy
  | Transport (n : nat) (ev : transport_event).

Section Subscription.
Variable path : list string.
Variable procedureInput : value.
Variable enabled : value.      (* [opts?.enabled ?? true] *)
Variable opts : handlers.

(** The cleanup closure of the [n]-th subscription:
    [isStopped = true; subscription.unsubscribe()]. *)
Definition run_cleanup (n : nat) (w : effect_state) : effect_state * list event :=
  (EffectState (<[n := true]> (isStopped w)) (cleanup w) (values w),
   [Unsubscribe n]).

(** The effect callback: nothing when disabled, otherwise a new
    subscription with its own unset flag. *)
Definition subscribe_cb (w : effect_state) : effect_state * list event :=
  if negb (truthy enabled) then
    (EffectState (isStopped w) None (values w), [])
  else
    let n := length (isStopped w) in
    (EffectState (isStopped w ++ [false])%list (Some n) (values w),
     [Subscribe n path (nullish procedureInput VUndefined)]).

(** [if (cleanup) cleanup()] *)
Definition cleanup_if_any (w : effect_state) : effect_state * list event :=
  match cleanup w with
  | Some n => run_cleanup n w
  | None => (w, [])
  end.

(** [effect]'s [apply]: [if (cleanup) cleanup(); cleanup = cb();] *)
Definition effect_apply (w : effect_state) : effect_state * list event :=
  let '(w1, es1) := cleanup_if_any w in
  let '(w2, es2) := subscribe_cb w1 in
  (w2, (es1 ++ es2)%list).

(** The three handlers passed to the transport, for the [n]-th
    subscription: each forwards only [if (!isStopped)]. *)
Definition deliver (n : nat) (ev : transport_event) (w : effect_state) : list event :=
  match isStopped w !! n with
  | Some false =>
      match ev with
      | Started => if onStarted opts then [Handler n "onStarted" []] else []
      | Data data => if onData opts then [Handler n "onData" [data]] else []
      | Errored err => if onError opts then [Handler n "onError" [err]] else []
      end
  | _ => []
  end.

Definition step (w : effect_state) (a : action) : effect_state * list event :=
  match a with
  | AfterUpdate new_values =>
      if deps_changed new_values (values w) then
        let '(w', es) := effect_apply w in
        (EffectState (isStopped w') (cleanup w') new_values, es)
      else (w, [])
  | Destroy => cleanup_if_any w
  | Transport n ev => (w, deliver n ev w)
  end.

Fixpoint steps (w : effect_state) (acts : list action) : effect_state * list event :=
  match acts with
  | [] => (w, [])
  | a :: rest =>
      let '(w1, es1) := step w a in
      let '(w2, es2) := steps w1 rest in
      (w2, (es1 ++ es2)%list)
  end.
End Subscription.

(** [procedures[Procedure.subscribe]]: the dependencies of the effect it
    installs, [[queryKey, enabled]] with [queryKey] the hash of the key.
    Both are constants of the call, so every evaluation gives the same
    string and the same [enabled]: when that is an object, the one at
    [enabled_address]. *)
Definition createSubscription_deps (hashKey : value → string)
    (path : list string) (procedureInput opts_enabled : value)
    (enabled_address : nat) : list dep :=
  [Primitive (VStr (hashKey (getQueryKeyInternal path procedureInput (Some TAny))));
   dep_of enabled_address (nullish opts_enabled (VBool true))].

(** ** Statements about descriptors *)


(** The [cleanup] closure of an effect always belongs to a subscription
    that was opened. *)
Definition cleanup_opened (w : effect_state) : Prop :=
  ∀ n, cleanup w = Some n → n < length (isStopped w).

(** ** Reading a key back *)

(** [queryKey[1]], when the key has one. *)
Definition key_options (queryKey : value) : option value :=
  match queryKey with
  | VArr l => l !! 1
  | _ => None
  end.

(** [queryKey[1]?.type] *)
Definition key_type (queryKey : value) : value :=
  match queryKey with
  | VArr (_ :: o :: _) => opt_get o "type"
  | _ => VUndefined
  end.

(** The [get] trap of [svelteQueryWrapper] and of [createQueriesProxy]:
    [this.nest(() => {})], the node one segment further. *)
Definition nest (this_path : list string) (key : string) : list string :=
  (this_path ++ [key])%list.

(** The path of the node a chain of property accesses reaches from the
    root of the dispatcher. *)
Definition accessed (keys : list string) : list string := foldl nest [] keys.

(** ** Batch-query tree *)

(** The [apply] trap of [createQueriesProxy] at the node of path
    [procedurePath]: the descriptor it returns for [(input, opts)]. *)
Definition createQueriesProxy_apply (procedurePath : list string)
    (abortOnUnmount input opts : value) : descriptor :=
  let abort := shouldAbortOnUnmount opts abortOnUnmount in
  let queryKey := getQueryKeyInternal procedurePath input (Some TQuery) in
  {| options := <["queryKey" := queryKey]> (spread opts);
     queryFn := λ ctx,
       ClientCall procedurePath "query"
         [input; trpcSpecificOptions opts abort (signal ctx)] |}.

(** ** Cache-control operations *)

(** What a cache-control operation asks of the query cache. *)
Inductive cache_call : Type :=
  | QueryCall (method : string) (d : descriptor)
  | FilterCall (method : string) (filters : gmap string value) (options : value)
  | SetQueryData (queryKey updater options : value)
  | GetQueryData (queryKey : value)
  | SetMutationDefaults (mutationKey options : value)
  | IsMutating (filters : gmap string value).

Inductive console_call : Type :=
  | ConsoleLog (args : list value)
  | ConsoleWarn (msg : string).

(** One call of a cache-control operation: what it prints and what it
    asks of the cache. *)
Record util_run : Type := UtilRun {
  printed : list console_call;
  asked : option cache_call
}.

(** The [n]-th argument of a call, [undefined] when it was not given. *)
Definition arg (n : nat) (args : list value) : value :=
  default VUndefined (args !! n).

(** The descriptor of [fetch], [prefetch] and [ensureData]. *)
Definition fetch_descriptor (u : util) (path : list string) (input opts : value)
    : descriptor :=
  let queryKey := getQueryKeyInternal path input (Some (getQueryType u)) in
  {| options := <["queryKey" := queryKey]> (spread opts);
     queryFn := λ _,
       ClientCall path "query" [key_input queryKey; opt_get opts "trpc"] |}.

(** The descriptor of [fetchInfinite] and [prefetchInfinite]. *)
Definition fetchInfinite_descriptor (u : util) (path : list string)
    (input opts : value) : descriptor :=
  let queryKey := getQueryKeyInternal path input (Some (getQueryType u)) in
  {| options :=
       <["initialPageParam" := initialPageParam opts]>
         (<["queryKey" := queryKey]> (spread opts));
     queryFn := λ ctx,
       ClientCall path "query"
         [actualInput (key_input queryKey) ctx; opt_get opts "trpc"] |}.

(** [{ ...filters, queryKey }] *)
Definition with_queryKey (filters queryKey : value) : gmap string value :=
  <["queryKey" := queryKey]> (spread filters).

(** [utilProcedures[key](ctx)(...args)] for options that are not
    functions. *)
Definition utilProcedures_call (u : util) (path : list string) (args : list value)
    : util_run :=
  let input := arg 0 args in
  let queryKey := getQueryKeyInternal path input (Some (getQueryType u)) in
  match u with
  | Ufetch => UtilRun [] (Some (QueryCall "fetchQuery" (fetch_descriptor u path input (arg 1 args))))
  | Uprefetch => UtilRun [] (Some (QueryCall "prefetchQuery" (fetch_descriptor u path input (arg 1 args))))
  | UensureData => UtilRun [] (Some (QueryCall "ensureQueryData" (fetch_descriptor u path input (arg 1 args))))
  | UfetchInfinite =>
      UtilRun [] (Some (QueryCall "fetchInfiniteQuery"
                          (fetchInfinite_descriptor u path input (arg 1 args))))
  | UprefetchInfinite =>
      UtilRun [] (Some (QueryCall "prefetchInfiniteQuery"
                          (fetchInfinite_descriptor u path input (arg 1 args))))
  | Uinvalidate =>
      UtilRun [ConsoleLog [path_value path; input; VStr (QueryType_str (getQueryType u))]]
              (Some (FilterCall "invalidateQueries"
                       (with_queryKey (arg 1 args) queryKey) (arg 2 args)))
  | Ureset =>
      UtilRun [] (Some (FilterCall "resetQueries"
                          (with_queryKey (arg 1 args) queryKey) (arg 2 args)))
  | Urefetch =>
      UtilRun [] (Some (FilterCall "refetchQueries"
                          (with_queryKey (arg 1 args) queryKey) (arg 2 args)))
  | Ucancel =>
      UtilRun [] (Some (FilterCall "cancelQueries"
                          {[ "queryKey" := queryKey ]} (arg 1 args)))
  | UsetData | UsetInfiniteData =>
      UtilRun [] (Some (SetQueryData queryKey (arg 1 args) (arg 2 args)))
  | UgetData | UgetInfiniteData =>
      UtilRun [] (Some (GetQueryData queryKey))
  | UsetMutationDefaults =>
      UtilRun [] (Some (SetMutationDefaults (getMutationKeyInternal path) (arg 0 args)))
  | UgetMutationDefaults =>
      UtilRun [ConsoleWarn "[trpc-svelte-query-adapter] getMutationDefaults utility is not able to retrieve defaults with Svelte Query v5 and will return undefined."]
              None
  | UisMutating =>
      UtilRun [] (Some (IsMutating {[ "mutationKey" := getMutationKeyInternal path;
                                      "exact" := VBool true ]}))
  end.

(** The key a cache call addresses. *)
Definition cache_call_key (c : cache_call) : option value :=
  match c with
  | QueryCall _ d => options d !! "queryKey"
  | FilterCall _ filters _ => filters !! "queryKey"
  | SetQueryData queryKey _ _ | GetQueryData queryKey => Some queryKey
  | SetMutationDefaults mutationKey _ => Some mutationKey
  | IsMutating filters => filters !! "mutationKey"
  end.

(** The operations that derive a query key from their first argument. *)
Definition query_shaped (u : util) : bool :=
  match u with
  | UsetMutationDefaults | UgetMutationDefaults | UisMutating => false
  | _ => true
  end.

(** The input as a key of type [query] carries it: the skip token counts
    as no input. *)
Definition without_skipToken (input : value) : value :=
  if is_skipToken input then VUndefined else input.

(** [const { cursor: _, direction: __, ...rest } = input] *)
Definition withoutCursorAndDirection (input : gmap string value) : gmap string value :=
  delete "direction" (delete "cursor" input).

(** A segment with no separator in it. *)
Fixpoint dot_free (s : string) : bool :=
  match s with
  | EmptyString => true
  | String c rest => negb (Ascii.eqb c "."%char) && dot_free rest
  end.

(** A value read as an array of segments, as [for (const p of path)]
    and [getQueryKeyInternal] read the [path] of a [_def()] result. *)
Definition as_segments (v : value) : option (list string) :=
  match v with
  | VArr l => mapM (λ x, if x is VStr s then Some s else None) l
  | _ => None
  end.

(** The exported [getQueryKey(procedureOrRouter, input, type)] for the
    node of the dispatcher at path [leaf]: [procedureOrRouter._def()]
    is a call on the node one segment further, and its [path] goes to
    [getQueryKeyInternal] with [type ?? 'any']. *)
Definition getQueryKey_of_node (leaf : list string) (input : value)
    (type : option QueryType) : option value :=
  match outcome (apply (nest leaf "_def") []) with
  | Normal (DValue def) =>
      path ← as_segments (opt_get def "path");
      Some (getQueryKeyInternal path input (Some (default TAny type)))
  | _ => None
  end.

(** The names of the meta-operations that exist at the root only. *)
Definition root_only : list string :=
  [Procedure Pqueries; Procedure PserverQueries; Procedure Putils; Procedure Pcontext].

(** [procedures[Procedure.queryKey]]:
    [(input, opts) => getQueryKeyInternal(path, input, opts)]. *)
Definition queryKey_procedure (path : list string) (input : value)
    (opts : option QueryType) : value :=
  getQueryKeyInternal path input opts.

(** A value that is neither [null] nor a store: [isSvelteStore] answers
    [false] for it. *)
Definition plain (v : value) : bool :=
  match v with
  | VNull | VStore _ => false
  | _ => true
  end.

(** [isOptsStore ? get(opts) : opts] *)
Definition currentOpts_of_opts (opts : value) : value :=
  if opts is VStore current then current else opts.

(** How the result of a query binder depends on its arguments: it
    throws on a [null] argument, is static when neither argument is a
    store and [lazy] is unset, is a lazy pair when [lazy] is set, and is
    reactive otherwise. *)
Definition result_kinds (binder : value → value → completion binding)
    (input opts : value) : Prop :=
  ((∃ e, binder input opts = Throw e) ↔ input = VNull ∨ opts = VNull)
  ∧ ((∃ d, binder input opts = Normal (Static d))
     ↔ plain input = true ∧ plain opts = true
       ∧ truthy (opt_get opts "lazy") = false)
  ∧ ((∃ q resolver, binder input opts = Normal (LazyPair q resolver))
     ↔ input ≠ VNull
       ∧ truthy (opt_get (currentOpts_of_opts opts) "lazy") = true)
  ∧ ((∃ q, binder input opts = Normal (Reactive q))
     ↔ input ≠ VNull ∧ opts ≠ VNull
       ∧ (plain input = false ∨ plain opts = false)
       ∧ truthy (opt_get (currentOpts_of_opts opts) "lazy") = false).

(** How many subscriptions a trace opens. *)
Fixpoint subscriptions (tr : list event) : nat :=
  match tr with
  | [] => 0
  | Subscribe _ _ _ :: rest => S (subscriptions rest)
  | _ :: rest => subscriptions rest
  end.

(** Whether the component was updated at all. *)
Definition updated (acts : list action) : bool :=
  existsb (λ a, if a is AfterUpdate _ then true else false) acts.

(** The subscriptions an effect has opened are all stopped, except
    possibly the one its [cleanup] closure will tear down. *)
Definition one_live (w : effect_state) : Prop :=
  ∀ n, isStopped w !! n = Some false → cleanup w = Some n.

(** A segment the utils tree does not take for itself: neither [client]
    nor the name of a cache-control operation. *)
Definition free_segment (key : string) : bool :=
  negb (String.eqb key "client")
  && (if own utilProcedures key is Some _ then false else true).

(** ** The example application: the mock database *)

Module MockDb.

(** A todo; ids are the integral numbers the database hands out. *)
Record Todo : Type := mkTodo {
  id : Z;
  text : string;
  done : bool
}.

(** The module state: the [todos] array and the [nextId] counter. *)
Record state : Type := State {
  todos : list Todo;
  nextId : Z
}.

Definition seed : list Todo :=
  [ mkTodo 1 "Learn Svelte" true;
    mkTodo 2 "Learn tRPC" true;
    mkTodo 3 "Build a tRPC-SvelteQuery app" false;
    mkTodo 4 "Profit!" false ].

(** The state the module starts in: [nextId = todos.length + 1]. *)
Definition initial : state := State seed (Z.of_nat (length seed) + 1).

(** [findMany]: the todos the [where] predicate keeps, or a copy of all
    of them without one. *)
Definition findMany (where_ : option (Todo → bool)) (s : state) : list Todo :=
  match where_ with
  | Some keep => List.filter keep (todos s)
  | None => todos s
  end.

(** [create]: a new todo under the next id, appended. *)
Definition create (data_text : string) (s : state) : Todo * state :=
  let newTodo := mkTodo (nextId s) data_text false in
  (newTodo, State (todos s ++ [newTodo]) (nextId s + 1)).

(** [todos.findIndex(t => t.id === where.id)], nothing for [-1]. *)
Fixpoint findIndex (where_id : Z) (l : list Todo) : option nat :=
  match l with
  | [] => None
  | t :: rest =>
      if (id t =? where_id)%Z then Some 0
      else S <$> findIndex where_id rest
  end.

(** The fields of [Partial<Omit<Todo, 'id'>>] that are given. *)
Record TodoData : Type := mkData {
  new_text : option string;
  new_done : option bool
}.

(** [{ ...todo, ...data }] *)
Definition merge (t : Todo) (data : TodoData) : Todo :=
  mkTodo (id t) (default (text t) (new_text data)) (default (done t) (new_done data)).

(** [update]: the first todo with the id, merged with the data, in
    place; nothing when there is none. *)
Definition update (where_id : Z) (data : TodoData) (s : state) : option Todo * state :=
  match findIndex where_id (todos s) with
  | None => (None, s)
  | Some todoIndex =>
      match todos s !! todoIndex with
      | Some t =>
          (Some (merge t data), State (<[todoIndex := merge t data]> (todos s)) (nextId s))
      | None => (None, s)
      end
  end.

(** [delete]: the first todo with the id, spliced out; nothing when
    there is none. *)
Definition delete (where_id : Z) (s : state) : option Todo * state :=
  match findIndex where_id (todos s) with
  | None => (None, s)
  | Some todoIndex =>
      (todos s !! todoIndex, State (base.delete todoIndex (todos s)) (nextId s))
  end.

Definition resetDb (s : state) : state := initial.

(** The calls that change the database. *)
Inductive call : Type :=
  | Create (data_text : string)
  | Update (where_id : Z) (data : TodoData)
  | Delete (where_id : Z)
  | ResetDb.

Definition perform (s : state) (c : call) : state :=
  match c with
  | Create data_text => (create data_text s).2
  | Update where_id data => (update where_id data s).2
  | Delete where_id => (delete where_id s).2
  | ResetDb => resetDb s
  end.

(** The ids in use are pairwise different and below the counter. *)
Definition ids_ok (s : state) : Prop :=
  NoDup (id <$> todos s) ∧ Forall (λ t, (id t < nextId s)%Z) (todos s).

End MockDb.

(** ** The example application: router and client *)

Module Router.

(** [z.number().optional()] on a field of the input: nothing for an
    absent or [undefined] field, the number for a number; anything else
    fails validation. *)
Definition optional_number (field : option value) : option (option Z) :=
  match field with
  | None | Some VUndefined => Some None
  | Some (VNum n) => Some (Some n)
  | Some _ => None
  end.

(** Numbers are binary64.  [double_round n] is the double nearest to
    the integer [n], ties to the even significand: [n] itself up to
    [2^53], beyond that a multiple of the spacing of the doubles at its
    magnitude. *)
Definition double_round (n : Z) : Z :=
  let a := Z.abs n in
  if (a <=? 2 ^ 53)%Z then n
  else
    let ulp := (2 ^ (Z.log2 a - 52))%Z in
    let q := (a / ulp)%Z in
    let r := (a mod ulp)%Z in
    let up := (ulp <? 2 * r)%Z || ((2 * r =? ulp)%Z && Z.odd q) in
    (Z.sgn n * ((if up then q + 1 else q) * ulp))%Z.

(** [a + b] on two doubles that are integers: the sum, rounded; nothing
    stands for an infinity, which is what a sum of magnitude [2^1024]
    or more becomes. *)
Definition number_add (a b : Z) : option Z :=
  let sum := double_round (a + b) in
  if (Z.abs sum <? 2 ^ 1024)%Z then Some sum else None.

(** What [todos.getPopular] asks the external service for ([_start],
    [_limit]) and the [nextCursor] it returns with the page. *)
Record popular : Type := Popular {
  _start : Z;
  _limit : Z;
  nextCursor : option Z
}.

(** [todos.getPopular]: the input is validated as an object of two
    optional numbers, [cursor] defaults to [0] and [limit] to [10];
    [nextCursor] is [start + limit]. *)
Definition getPopular (input : value) : option popular :=
  match input with
  | VObj o =>
      match optional_number (o !! "cursor"), optional_number (o !! "limit") with
      | Some cursor, Some limit =>
          let start := default 0%Z cursor in
          let limit := default 10%Z limit in
          Some (Popular start limit (number_add start limit))
      | _, _ => None
      end
  | _ => None
  end.

End Router.

Module Client.

(** A wrapper client: the [serial] tells the objects that
    [svelteQueryWrapper] returns apart, [client] is the tRPC client it
    was given (the number of the [createTRPCClient] call that made it)
    and [queryClient] the argument it was built with. *)
Record wrapper : Type := Wrapper {
  serial : nat;
  client : nat;
  queryClient : value
}.

(** The module's two variables, and how many clients and wrappers have
    been constructed so far. *)
Record state : Type := State {
  browserSvelteQueryWrapperClient : option wrapper;
  rawTrpcClient : option nat;
  clients : nat;
  wrappers : nat
}.

Definition initial : state := State None None 0 0.

(** [getTrpcClient]: the cached client, or a new one that is cached. *)
Definition getTrpcClient (s : state) : nat * state :=
  match rawTrpcClient s with
  | Some c => (c, s)
  | None =>
      (clients s,
       State (browserSvelteQueryWrapperClient s) (Some (clients s))
             (S (clients s)) (wrappers s))
  end.

(** [trpc(queryClient)], with [browser] from the environment. *)
Definition trpc (browser : bool) (queryClient : value) (s : state) : wrapper * state :=
  match (if browser then browserSvelteQueryWrapperClient s else None) with
  | Some cached => (cached, s)
  | None =>
      let '(trpcClientInstance, s) := getTrpcClient s in
      let wrapperClient := Wrapper (wrappers s) trpcClientInstance queryClient in
      let s := State (browserSvelteQueryWrapperClient s) (rawTrpcClient s)
                     (clients s) (S (wrappers s)) in
      (wrapperClient,
       if browser
       then State (Some wrapperClient) (rawTrpcClient s) (clients s) (wrappers s)
       else s)
  end.

(** A sequence of [trpc] calls, one per [queryClient] argument. *)
Fixpoint calls (browser : bool) (queryClients : list value) (s : state)
    : list wrapper * state :=
  match queryClients with
  | [] => ([], s)
  | queryClient :: rest =>
      let '(w, s) := trpc browser queryClient s in
      let '(ws, s) := calls browser rest s in
      (w :: ws, s)
  end.

End Client.

(** * Properties *)

(** ** Key codec *)

Lemma split_dot_aux_cons (acc s : string) :
  ∃ first others, split_dot_aux acc s = first :: others.
Proof.
  revert acc. induction s as [|c s IH]; intros acc; simpl.
  - eauto.
  - destruct (Ascii.eqb c "."); eauto.
Qed.

Lemma splitPath_cons (part : string) (path : list string) :
  ∃ first others, splitPath (part :: path) = first :: others.
Proof.
  unfold splitPath; simpl. unfold split_dot.
  destruct (split_dot_aux_cons EmptyString part) as (first & others & ->).
  simpl. eauto.
Qed.

Lemma splitPath_nil (path : list string) : splitPath path = [] ↔ path = [].
Proof.
  split; [|intros ->; reflexivity].
  destruct path as [|part path]; [done|].
  destruct (splitPath_cons part path) as (? & ? & ->). done.
Qed.

#[local] Instance VStr_inj : Inj (=) (=) VStr.
Proof. intros ?? [= ->]. reflexivity. Qed.

Lemma path_value_inj (a b : list string) : path_value a = path_value b → a = b.
Proof. unfold path_value. intros [= H]. by apply (inj (fmap VStr)) in H. Qed.

(** Whatever the input and type, the key of a non-empty path starts with
    its atomic segments. *)
Lemma getQueryKeyInternal_shape (path : list string) (input : value)
    (type : option QueryType) :
  getQueryKeyInternal path input type = VArr []
  ∨ ∃ rest, getQueryKeyInternal path input type
            = VArr (path_value (splitPath path) :: rest).
Proof.
  unfold getQueryKeyInternal.
  destruct (negb (truthy input) && type_is_any type).
  - destruct (splitPath path) eqn:E; eauto.
  - destruct (_ && _); eauto.
Qed.

(** C3: with no input and type [any] the key has no options element: it
    is the one-element key made of the atomic segments, and for the empty
    path it is the empty key, not a key holding an empty segment array. *)
Theorem C3_no_input_any_omits_options (path : list string) :
  getQueryKeyInternal path VUndefined (Some TAny)
    = VArr (if path is [] then [] else [path_value (splitPath path)])
  ∧ (∀ segments opts rest,
       getQueryKeyInternal path VUndefined (Some TAny)
         ≠ VArr (segments :: opts :: rest))
  ∧ getQueryKeyInternal [] VUndefined (Some TAny) = VArr []
  ∧ getQueryKeyInternal [] VUndefined (Some TAny) ≠ VArr [VArr []].
Proof.
  assert (Hkey : getQueryKeyInternal path VUndefined (Some TAny)
    = VArr (if path is [] then [] else [path_value (splitPath path)])).
  { unfold getQueryKeyInternal; simpl.
    destruct path as [|part path]; [reflexivity|].
    destruct (splitPath_cons part path) as (first & others & E).
    rewrite E. reflexivity. }
  repeat split.
  - exact Hkey.
  - intros segments opts rest. rewrite Hkey. destruct path; discriminate.
  - discriminate.
Qed.

(** C4: under type [infinite] an object input that has a [cursor] or a
    [direction] enters the key without them and with its other fields
    untouched. *)
Theorem C4_infinite_key_strips_cursor_and_direction
    (path : list string) (input : gmap string value) :
  is_Some (input !! "cursor") ∨ is_Some (input !! "direction") →
  getQueryKeyInternal path (VObj input) (Some TInfinite)
    = VArr [path_value (splitPath path);
            VObj {[ "input" := VObj (delete "direction" (delete "cursor" input));
                    "type" := VStr "infinite" ]}]
  ∧ delete "direction" (delete "cursor" input) !! "cursor" = None
  ∧ delete "direction" (delete "cursor" input) !! "direction" = None
  ∧ ∀ k, k ≠ "cursor" → k ≠ "direction" →
         delete "direction" (delete "cursor" input) !! k = input !! k.
Proof.
  intros Hfield. repeat split.
  - unfold getQueryKeyInternal; simpl.
    destruct Hfield as [[v Hv]|[v Hv]]; rewrite Hv; simpl.
    + rewrite orb_true_r. reflexivity.
    + reflexivity.
  - rewrite lookup_delete_ne by done. apply lookup_delete_eq.
  - apply lookup_delete_eq.
  - intros k Hc Hd. by rewrite !lookup_delete_ne.
Qed.

(** The spec's example: [{cursor: 5, direction: 'forward', filter: 'x'}]
    under [infinite] gives the options element
    [{input: {filter: 'x'}, type: 'infinite'}]. *)
Lemma C4_example :
  (is_Some (({[ "cursor" := VNum 5; "direction" := VStr "forward";
               "filter" := VStr "x" ]} : gmap string value) !! "cursor")
   ∨ is_Some (({[ "cursor" := VNum 5; "direction" := VStr "forward";
                  "filter" := VStr "x" ]} : gmap string value) !! "direction"))
  ∧ getQueryKeyInternal ["todos"; "list"]
      (VObj {[ "cursor" := VNum 5; "direction" := VStr "forward";
               "filter" := VStr "x" ]}) (Some TInfinite)
    = VArr [VArr [VStr "todos"; VStr "list"];
            VObj {[ "input" := VObj {[ "filter" := VStr "x" ]};
                    "type" := VStr "infinite" ]}].
Proof.
  assert (H : is_Some (({[ "cursor" := VNum 5; "direction" := VStr "forward";
               "filter" := VStr "x" ]} : gmap string value) !! "cursor")
   ∨ is_Some (({[ "cursor" := VNum 5; "direction" := VStr "forward";
                  "filter" := VStr "x" ]} : gmap string value) !! "direction")).
  { left. exists (VNum 5). vm_compute. reflexivity. }
  split; [exact H|].
  destruct (C4_infinite_key_strips_cursor_and_direction ["todos"; "list"] _ H)
    as [-> _].
  vm_compute. reflexivity.
Defined.

(** Under the types [query] and [infinite] the skip token gives the key
    of an absent input. *)
Lemma skipToken_as_absent_when_typed (path : list string) (type : QueryType) :
  type ≠ TAny →
  getQueryKeyInternal path VSkipToken (Some type)
    = getQueryKeyInternal path VUndefined (Some type).
Proof. destruct type; [reflexivity | reflexivity | done]. Qed.

(** C5: under type [any] the skip token is not treated as an absent
    input: its key carries an (empty) options element, the key of an
    absent input carries none. *)
Theorem C5_skipToken_any_keeps_options_element :
  getQueryKeyInternal ["todos"; "get"] VSkipToken (Some TAny)
    = VArr [VArr [VStr "todos"; VStr "get"]; VObj ∅]
  ∧ getQueryKeyInternal ["todos"; "get"] VUndefined (Some TAny)
    = VArr [VArr [VStr "todos"; VStr "get"]]
  ∧ getQueryKeyInternal ["todos"; "get"] VSkipToken (Some TAny)
    ≠ getQueryKeyInternal ["todos"; "get"] VUndefined (Some TAny)
  ∧ getQueryKey ["todos"; "get"] VSkipToken None
    ≠ getQueryKey ["todos"; "get"] VUndefined None.
Proof.
  split; [reflexivity|]. split; [reflexivity|].
  split; intros H; vm_compute in H; discriminate H.
Qed.

(** ** Key codec: splitting and joining *)

Lemma string_app_assoc (a b c : string) : ((a ++ b) ++ c = a ++ (b ++ c))%string.
Proof.
  induction a as [|x a IH]; [reflexivity|].
  change (String x ((a ++ b) ++ c) = String x (a ++ (b ++ c))). by f_equal.
Qed.

Lemma string_app_nil_r (a : string) : (a ++ "")%string = a.
Proof.
  induction a as [|x a IH]; [reflexivity|].
  change (String x (a ++ "") = String x a). by f_equal.
Qed.

Lemma rev_app_app (s t : string) : String.rev_app s t = (String.rev s ++ t)%string.
Proof.
  revert t. induction s as [|c s IH]; intros t; [reflexivity|].
  unfold String.rev.
  change (String.rev_app s (String c t) = String.rev_app s (String c "") ++ t).
  rewrite (IH (String c t)), (IH (String c "")).
  by rewrite string_app_assoc.
Qed.

Lemma rev_cons (c : ascii) (s : string) :
  String.rev (String c s) = (String.rev s ++ String c "")%string.
Proof. unfold String.rev at 1. apply (rev_app_app s (String c "")). Qed.

Lemma dot_free_app (a b : string) :
  dot_free (a ++ b) = dot_free a && dot_free b.
Proof.
  induction a as [|c a IH]; [reflexivity|].
  change (dot_free (String c (a ++ b)) = dot_free (String c a) && dot_free b).
  simpl. rewrite IH. by rewrite andb_assoc.
Qed.

Lemma dot_free_rev (s : string) : dot_free (String.rev s) = dot_free s.
Proof.
  induction s as [|c s IH]; [reflexivity|].
  rewrite rev_cons, dot_free_app, IH. simpl. rewrite andb_true_r. apply andb_comm.
Qed.

(** Every piece [split] cuts out is free of separators. *)
Lemma split_dot_aux_dot_free (s acc : string) :
  dot_free acc = true → Forall (λ piece, dot_free piece = true) (split_dot_aux acc s).
Proof.
  revert acc. induction s as [|c s IH]; intros acc Hacc; simpl.
  - constructor; [by rewrite dot_free_rev|constructor].
  - destruct (Ascii.eqb c ".") eqn:Ec.
    + constructor; [by rewrite dot_free_rev|]. by apply IH.
    + apply IH. simpl. by rewrite Ec.
Qed.

(** A piece with no separator is not cut. *)
Lemma split_dot_aux_whole (s acc : string) :
  dot_free s = true → split_dot_aux acc s = [(String.rev acc ++ s)%string].
Proof.
  revert acc. induction s as [|c s IH]; intros acc Hs; simpl in *.
  - by rewrite string_app_nil_r.
  - apply andb_true_iff in Hs as [Hc Hs]. apply negb_true_iff in Hc.
    rewrite Hc, IH by done. by rewrite rev_cons, string_app_assoc.
Qed.

(** A separator after a piece with none cuts right there. *)
Lemma split_dot_aux_cut (a b acc : string) :
  dot_free a = true →
  split_dot_aux acc (a ++ String "." b)
  = (String.rev acc ++ a)%string :: split_dot_aux EmptyString b.
Proof.
  revert acc. induction a as [|c a IH]; intros acc Ha.
  - change (split_dot_aux acc (String "." b)
            = (String.rev acc ++ "")%string :: split_dot_aux EmptyString b).
    by rewrite string_app_nil_r.
  - change (split_dot_aux acc (String c (a ++ String "." b))
            = (String.rev acc ++ String c a)%string :: split_dot_aux EmptyString b).
    simpl in *.
    apply andb_true_iff in Ha as [Hc Ha]. apply negb_true_iff in Hc.
    rewrite Hc, IH by done. by rewrite rev_cons, string_app_assoc.
Qed.

Lemma splitPath_app (p q : list string) :
  splitPath (p ++ q) = (splitPath p ++ splitPath q)%list.
Proof. unfold splitPath. apply bind_app. Qed.

Lemma splitPath_dot_free (path : list string) :
  Forall (λ segment, dot_free segment = true) (splitPath path).
Proof.
  induction path as [|part path IH]; [constructor|].
  change (splitPath (part :: path)) with (split_dot part ++ splitPath path)%list.
  apply Forall_app. split; [|exact IH]. by apply split_dot_aux_dot_free.
Qed.

Lemma splitPath_of_atomic (segments : list string) :
  Forall (λ segment, dot_free segment = true) segments →
  splitPath segments = segments.
Proof.
  induction 1 as [|segment segments Hfree _ IH]; [reflexivity|].
  change (splitPath (segment :: segments))
    with (split_dot segment ++ splitPath segments)%list.
  unfold split_dot. rewrite split_dot_aux_whole, IH by done. reflexivity.
Qed.

Lemma split_dot_concat (segment : string) (segments : list string) :
  Forall (λ s, dot_free s = true) (segment :: segments) →
  split_dot (String.concat "." (segment :: segments)) = segment :: segments.
Proof.
  revert segment. induction segments as [|next segments IH]; intros segment Hfree.
  - apply Forall_inv in Hfree. simpl. unfold split_dot.
    by rewrite split_dot_aux_whole.
  - pose proof (Forall_inv Hfree) as Hsegment.
    apply Forall_inv_tail in Hfree.
    change (String.concat "." (segment :: next :: segments))
      with (segment ++ String "." (String.concat "." (next :: segments)))%string.
    unfold split_dot. rewrite split_dot_aux_cut by done. simpl.
    f_equal. by apply IH.
Qed.

(** Joining what [split] cut gives the string back. *)
Lemma concat_split_dot_aux (s acc : string) :
  String.concat "." (split_dot_aux acc s) = (String.rev acc ++ s)%string.
Proof.
  revert acc. induction s as [|c s IH]; intros acc.
  - simpl. by rewrite string_app_nil_r.
  - cbn [split_dot_aux]. destruct (Ascii.eqb c ".") eqn:Ec.
    + apply Ascii.eqb_eq in Ec as ->.
      destruct (split_dot_aux_cons EmptyString s) as (first & others & E).
      specialize (IH EmptyString). rewrite E in *.
      change (String.concat "." (String.rev acc :: first :: others))
        with (String.rev acc ++ String "." (String.concat "." (first :: others)))%string.
      rewrite IH. reflexivity.
    + rewrite IH, rev_cons, string_app_assoc. reflexivity.
Qed.

Lemma concat_split_dot (s : string) : String.concat "." (split_dot s) = s.
Proof. apply (concat_split_dot_aux s EmptyString). Qed.

Lemma concat_app_cons (l : list string) (x : string) (k : list string) :
  l ≠ [] →
  String.concat "." (l ++ x :: k)
  = (String.concat "." l ++ String "." (String.concat "." (x :: k)))%string.
Proof.
  induction l as [|a l IH]; [done|]. intros _.
  destruct l as [|b l].
  - reflexivity.
  - change (String.concat "." ((a :: b :: l) ++ x :: k))
      with (a ++ String "." (String.concat "." ((b :: l) ++ x :: k)))%string.
    rewrite IH by done.
    change (String.concat "." (a :: b :: l))
      with (a ++ String "." (String.concat "." (b :: l)))%string.
    rewrite string_app_assoc. reflexivity.
Qed.

(** The atomic segments, joined, are the segments joined. *)
Lemma concat_splitPath (path : list string) :
  String.concat "." (splitPath path) = String.concat "." path.
Proof.
  induction path as [|part path IH]; [reflexivity|].
  change (splitPath (part :: path)) with (split_dot part ++ splitPath path)%list.
  destruct path as [|next path].
  - change (splitPath []) with (@nil string). rewrite app_nil_r. apply concat_split_dot.
  - destruct (splitPath_cons next path) as (first & others & E).
    rewrite E in *. rewrite concat_app_cons.
    + rewrite IH, concat_split_dot. reflexivity.
    + unfold split_dot. destruct (split_dot_aux_cons EmptyString part) as (? & ? & ->). done.
Qed.

(** Separator-free segments are determined by their join, the empty
    sequence apart. *)
Lemma atomic_segments_unique (l k : list string) :
  Forall (λ s, dot_free s = true) l → Forall (λ s, dot_free s = true) k →
  String.concat "." l = String.concat "." k → (l = [] ↔ k = []) → l = k.
Proof.
  intros Hl Hk Hjoin Hempty.
  destruct l as [|a l], k as [|b k]; [done| | |].
  - by destruct (proj1 Hempty eq_refl).
  - by destruct (proj2 Hempty eq_refl).
  - rewrite <- (split_dot_concat a l Hl), <- (split_dot_concat b k Hk).
    by rewrite Hjoin.
Qed.

Lemma keys_equal_iff (p1 p2 : list string) (input : value) (type : option QueryType) :
  getQueryKeyInternal p1 input type = getQueryKeyInternal p2 input type
  ↔ splitPath p1 = splitPath p2.
Proof.
  split.
  - unfold getQueryKeyInternal.
    destruct (negb (truthy input) && type_is_any type).
    + destruct (splitPath p1) as [|a l1], (splitPath p2) as [|b l2]; intros H;
        try discriminate H; [reflexivity|].
      apply path_value_inj. congruence.
    + destruct (_ && _); intros H; apply path_value_inj; congruence.
  - unfold getQueryKeyInternal. by intros ->.
Qed.

(** [queryKey[0]]: nothing for the empty key, the atomic segments
    otherwise. *)
Lemma first_of_key (path : list string) (input : value) (type : option QueryType) :
  let queryKey := getQueryKeyInternal path input type in
  let first := head (match queryKey with VArr l => l | _ => [] end) in
  (queryKey = VArr [] ∧ first = None)
  ∨ (queryKey ≠ VArr [] ∧ first = Some (path_value (splitPath path))).
Proof.
  simpl.
  destruct (getQueryKeyInternal_shape path input type) as [E|[rest E]];
    rewrite E; [left|right]; done.
Qed.

(** C6: for a fixed input and type two paths have the same key exactly
    when their atomic segments are the same.  The atomic segments are
    the separator-free pieces that, joined by dots, give the segments
    joined by dots (from no segment, none), so the keys are the same
    exactly when the dotted names of the two paths are, both paths
    being empty or neither; a segment with dots counts as its pieces,
    paths that differ in a piece have different keys, and different
    atomic segments show in the first element of the key. *)
Theorem C6_keys_equal_iff_atomic_segments_equal
    (p1 p2 : list string) (input : value) (type : option QueryType) :
  (getQueryKeyInternal p1 input type = getQueryKeyInternal p2 input type
     ↔ splitPath p1 = splitPath p2)
  ∧ (Forall (λ segment, dot_free segment = true) (splitPath p1)
     ∧ String.concat "." (splitPath p1) = String.concat "." p1
     ∧ (splitPath p1 = [] ↔ p1 = []))
  ∧ (getQueryKeyInternal p1 input type = getQueryKeyInternal p2 input type
     ↔ String.concat "." p1 = String.concat "." p2 ∧ (p1 = [] ↔ p2 = []))
  ∧ getQueryKeyInternal ["todos.get"] input type
    = getQueryKeyInternal ["todos"; "get"] input type
  ∧ getQueryKeyInternal ["todos"; "get"] input type
    ≠ getQueryKeyInternal ["todos"; "list"] input type
  ∧ (splitPath p1 ≠ splitPath p2 →
     head (match getQueryKeyInternal p1 input type with VArr l => l | _ => [] end)
     ≠ head (match getQueryKeyInternal p2 input type with VArr l => l | _ => [] end)).
Proof.
  pose proof (keys_equal_iff p1 p2 input type) as Hiff.
  split; [exact Hiff|]. split.
  { split; [apply splitPath_dot_free|]. split; [apply concat_splitPath|apply splitPath_nil]. }
  split.
  { rewrite Hiff. split.
    - intros Hsame. split.
      + by rewrite <- (concat_splitPath p1), <- (concat_splitPath p2), Hsame.
      + by rewrite <- (splitPath_nil p1), <- (splitPath_nil p2), Hsame.
    - intros [Hjoin Hempty]. apply atomic_segments_unique.
      + apply splitPath_dot_free.
      + apply splitPath_dot_free.
      + by rewrite !concat_splitPath.
      + by rewrite !splitPath_nil. }
  split; [apply keys_equal_iff; reflexivity|]. split.
  { intros Hsame. apply keys_equal_iff in Hsame. discriminate Hsame. }
  intros Hne.
  destruct (first_of_key p1 input type) as [[E1 ->]|[N1 ->]],
           (first_of_key p2 input type) as [[E2 ->]|[N2 ->]];
    try discriminate.
  - exfalso. apply Hne, Hiff. congruence.
  - intros H. apply Hne, path_value_inj. congruence.
Qed.

(** ** Path resolver *)

Lemma pop_snoc (rest : list string) (key : string) :
  pop (rest ++ [key])%list = (key, rest).
Proof. unfold pop. rewrite reverse_snoc. simpl. by rewrite reverse_involutive. Qed.

(** C1, as the dispatcher has it: a call whose last segment names no
    meta-operation, is not [_def] and is not the [opts] helper of one,
    reaches no remote procedure; the dispatcher logs the path as
    unhandled and returns [undefined]. *)
Theorem C1_unmatched_call_is_logged_not_forwarded
    (rest : list string) (key : string) (argList : list value) :
  key ≠ "_def" →
  own procedures_keys key = None →
  hasOwn_ext (pop rest).1 key = false →
  outcome (apply (rest ++ [key])%list argList) = Normal (DValue VUndefined)
  ∧ trace (apply (rest ++ [key])%list argList)
    = [ConsoleError (unhandled_message (pop rest).2 key)]
  ∧ ∀ p method args,
      ClientCall p method args ∉ trace (apply (rest ++ [key])%list argList).
Proof.
  intros Hdef Hreg Hext.
  assert (E : apply (rest ++ [key])%list argList
    = Applied (Normal (DValue VUndefined))
              [ConsoleError (unhandled_message (pop rest).2 key)] (pop rest).2).
  { unfold apply. rewrite pop_snoc.
    apply String.eqb_neq in Hdef. rewrite Hdef, Hreg.
    destruct (pop rest) as [proc path2]; simpl in *. by rewrite Hext. }
  rewrite E; simpl. split; [reflexivity|]. split; [reflexivity|].
  intros p method args Hin. apply list_elem_of_singleton in Hin. discriminate Hin.
Qed.

Lemma C1_unmatched_call_witness :
  "query" ≠ "_def"
  ∧ own procedures_keys "query" = None
  ∧ hasOwn_ext (pop ["todos"; "get"]).1 "query" = false
  ∧ outcome (apply ["todos"; "get"; "query"] [VNum 1]) = Normal (DValue VUndefined).
Proof.
  assert (H1 : "query" ≠ "_def") by discriminate.
  assert (H2 : own procedures_keys "query" = None) by reflexivity.
  assert (H3 : hasOwn_ext (pop ["todos"; "get"]).1 "query" = false) by reflexivity.
  split; [exact H1|]. split; [exact H2|]. split; [exact H3|].
  exact (proj1 (C1_unmatched_call_is_logged_not_forwarded
                  ["todos"; "get"] "query" [VNum 1] H1 H2 H3)).
Defined.

(** [client.todos.get.query(1)] is not forwarded: the client is never
    called, the call is logged and gives [undefined]. *)
Lemma C1_query_call_reaches_no_client :
  outcome (apply ["todos"; "get"; "query"] [VNum 1]) = Normal (DValue VUndefined)
  ∧ trace (apply ["todos"; "get"; "query"] [VNum 1])
    = [ConsoleError "[trpc-svelte-query-adapter] Unhandled proxy path: todos.query"]
  ∧ ¬ ∃ args, ClientCall ["todos"; "get"] "query" args
              ∈ trace (apply ["todos"; "get"; "query"] [VNum 1]).
Proof.
  split; [reflexivity|]. split; [reflexivity|].
  intros [args Hin]. vm_compute in Hin.
  apply list_elem_of_singleton in Hin. discriminate Hin.
Qed.

(** C2: off the root the batch-query and utils meta-operations do not
    resolve to [undefined]: their factory returns nothing and the
    dispatcher calls it all the same, which throws, and nothing is
    logged. *)
Theorem C2_root_only_operation_off_root_throws
    (first : string) (rest : list string) (argList : list value) :
  Forall (λ key,
    outcome (apply ((first :: rest) ++ [key])%list argList)
      = Throw (TypeError "procedures[key](...) is not a function")
    ∧ trace (apply ((first :: rest) ++ [key])%list argList) = [])
    ["createQueries"; "createServerQueries"; "createUtils"; "createContext"].
Proof.
  repeat constructor; unfold apply; rewrite pop_snoc; reflexivity.
Qed.

(** [client.todos.createQueries(...)] *)
Example createQueries_off_root :
  outcome (apply ["todos"; "createQueries"] [VNull])
  = Throw (TypeError "procedures[key](...) is not a function")
  ∧ outcome (apply ["createQueries"] [VNull]) = Normal (DBound Pqueries [] [VNull]).
Proof. split; reflexivity. Qed.

(** ** Cache-control tree *)

Section UtilsFacts.
Context {Client : Type} (trpcProxyClient : Client).

Lemma utils_access_app (node keys more p : list string) :
  utils_access trpcProxyClient node keys = Some (GotNode p) →
  utils_access trpcProxyClient node (keys ++ more)%list
    = utils_access trpcProxyClient p more.
Proof.
  revert node. induction keys as [|key keys IH]; intros node; simpl.
  - by intros [= ->].
  - destruct (createUtilsProxy_get trpcProxyClient node key) as [c|u q|q].
    + destruct keys; discriminate.
    + destruct keys; discriminate.
    + apply IH.
Qed.

(** C10: every node of the utils tree, at whatever depth it was
    reached from the root, answers [client] with the client handle. *)
Theorem C10_client_at_every_depth (keys node : list string) :
  utils_access trpcProxyClient [] keys = Some (GotNode node) →
  createUtilsProxy_get trpcProxyClient node "client" = GotClient trpcProxyClient
  ∧ utils_access trpcProxyClient [] (keys ++ ["client"])%list
    = Some (GotClient trpcProxyClient).
Proof.
  intros Hnode. split; [reflexivity|].
  rewrite (utils_access_app _ _ _ _ Hnode). reflexivity.
Qed.
End UtilsFacts.

(** [utils.todos.client] *)
Lemma C10_todos_client :
  utils_access 7 [] ["todos"] = Some (GotNode ["todos"])
  ∧ utils_access 7 [] ["todos"; "client"] = Some (GotClient 7).
Proof.
  assert (H : utils_access 7 [] ["todos"] = Some (GotNode ["todos"])) by reflexivity.
  split; [exact H|].
  exact (proj2 (C10_client_at_every_depth 7 ["todos"] ["todos"] H)).
Defined.

(** ** Infinite-query binder *)




(** [isOptsStore ? get(opts) : opts] *)
Lemma currentOpts_of (opts : value) (isOptsStore : bool) :
  isSvelteStore opts = Normal isOptsStore →
  (if isOptsStore then store_get opts else opts)
  = (if opts is VStore current then current else opts)
  ∧ (isOptsStore = false → (if opts is VStore current then current else opts) = opts).
Proof.
  destruct opts; simpl; intros E; simplify_eq; split; done.
Qed.




(** ** Query binder: lazy activation *)



(** ** Subscription binder *)

Section SubscriptionFacts.
Variable path : list string.
Variable procedureInput : value.
Variable enabled : value.
Variable opts : handlers.

Local Abbreviation step := (step path procedureInput enabled opts).
Local Abbreviation steps := (steps path procedureInput enabled opts).

Lemma cleanup_opened_init : cleanup_opened effect_init.
Proof. intros n [=]. Qed.

Lemma subscribe_cb_spec (w : effect_state) :
  cleanup_opened (subscribe_cb path procedureInput enabled w).1
  ∧ (∀ n, n < length (isStopped w) →
          isStopped (subscribe_cb path procedureInput enabled w).1 !! n = isStopped w !! n)
  ∧ ∀ e, e ∈ (subscribe_cb path procedureInput enabled w).2 → ∃ n p i, e = Subscribe n p i.
Proof.
  unfold subscribe_cb. destruct (negb (truthy enabled)); simpl.
  - split; [intros n [=]|]. split; [done|]. intros e He. by apply elem_of_nil in He.
  - split; [|split].
    + intros n [= <-]. simpl. rewrite length_app. simpl. lia.
    + intros n Hn. by apply lookup_app_l.
    + intros e He. apply list_elem_of_singleton in He. eauto.
Qed.

Lemma cleanup_if_any_spec (w : effect_state) :
  cleanup_opened w →
  let w' := (cleanup_if_any w).1 in
  length (isStopped w') = length (isStopped w)
  ∧ cleanup w' = cleanup w
  ∧ (∀ n, isStopped w !! n = Some true → isStopped w' !! n = Some true)
  ∧ (∀ e, e ∈ (cleanup_if_any w).2 →
       ∃ n, e = Unsubscribe n ∧ cleanup w = Some n
            ∧ isStopped w' !! n = Some true).
Proof.
  intros Hopen. unfold cleanup_if_any.
  destruct (cleanup w) as [k|] eqn:Ek; simpl.
  - specialize (Hopen k Ek). repeat split.
    + apply length_insert.
    + assumption.
    + intros n Hn. destruct (decide (k = n)) as [->|Hne].
      * by apply list_lookup_insert_eq.
      * by rewrite list_lookup_insert_ne.
    + intros e He. apply list_elem_of_singleton in He. exists k.
      repeat split; [assumption|]. by apply list_lookup_insert_eq.
  - repeat split; try done. intros e He. by apply elem_of_nil in He.
Qed.

Lemma step_spec (w : effect_state) (a : action) :
  cleanup_opened w →
  cleanup_opened (step w a).1
  ∧ (∀ n, isStopped w !! n = Some true → isStopped (step w a).1 !! n = Some true)
  ∧ (∀ n name args, Handler n name args ∈ (step w a).2 →
       isStopped w !! n = Some false
       ∧ ∀ m, Unsubscribe m ∉ (step w a).2)
  ∧ (∀ n, Unsubscribe n ∈ (step w a).2 → isStopped (step w a).1 !! n = Some true).
Proof.
  intros Hopen. destruct a as [new_values| |m ev]; simpl.
  - destruct (deps_changed new_values (values w)); simpl.
    2: { repeat split; try done; intros; exfalso; by eapply elem_of_nil. }
    unfold effect_apply.
    destruct (cleanup_if_any_spec w Hopen) as (Hlen & Hcl & Hkeep & Hev).
    destruct (cleanup_if_any w) as [w1 es1]; simpl in *.
    destruct (subscribe_cb_spec w1) as (Hopen2 & Hsame & Hev2).
    destruct (subscribe_cb path procedureInput enabled w1) as [w2 es2]; simpl in *.
    split; [exact Hopen2|]. split; [|split].
    + intros n Hn. rewrite Hsame; [by apply Hkeep|].
      rewrite Hlen. by eapply lookup_lt_Some.
    + intros n name args Hin. exfalso. apply elem_of_app in Hin as [Hin|Hin].
      * destruct (Hev _ Hin) as (? & ? & _). discriminate.
      * destruct (Hev2 _ Hin) as (? & ? & ? & ?). discriminate.
    + intros n Hin. apply elem_of_app in Hin as [Hin|Hin].
      * destruct (Hev _ Hin) as (k & [= <-] & _ & Hk).
        rewrite Hsame; [exact Hk|]. by eapply lookup_lt_Some.
      * destruct (Hev2 _ Hin) as (? & ? & ? & ?). discriminate.
  - destruct (cleanup_if_any_spec w Hopen) as (Hlen & Hcl & Hkeep & Hev).
    split; [|split; [exact Hkeep|split]].
    + intros n Hn. rewrite Hlen. apply Hopen. by rewrite <- Hcl.
    + intros n name args Hin. destruct (Hev _ Hin) as (? & ? & _). discriminate.
    + intros n Hin. destruct (Hev _ Hin) as (k & [= <-] & _ & Hk). exact Hk.
  - split; [exact Hopen|]. split; [done|]. split.
    + intros n name args Hin. unfold deliver in *.
      destruct (isStopped w !! m) as [[|]|] eqn:Em;
        try (exfalso; by eapply elem_of_nil).
      assert (∀ e, e ∈ deliver opts m ev w → ∃ name args, e = Handler m name args)
        as Hall.
      { intros e. unfold deliver. rewrite Em.
        destruct ev, opts as [[|] [|] [|]]; simpl; intros He;
          try (exfalso; by eapply elem_of_nil);
          apply list_elem_of_singleton in He; eauto. }
      assert (n = m) as ->.
      { destruct ev, opts as [[|] [|] [|]]; simpl in Hin;
          try (exfalso; by eapply elem_of_nil);
          apply list_elem_of_singleton in Hin; congruence. }
      split; [exact Em|]. intros k Hk.
      unfold deliver in Hall. rewrite Em in Hall.
      destruct (Hall _ Hk) as (? & ? & ?). discriminate.
    + intros n Hin. exfalso. unfold deliver in Hin.
      destruct (isStopped w !! m) as [[|]|]; try (by eapply elem_of_nil).
      destruct ev, opts as [[|] [|] [|]]; simpl in Hin;
        try (by eapply elem_of_nil);
        apply list_elem_of_singleton in Hin; discriminate.
Qed.

(** Once a subscription's flag is set, no run of the effect calls its
    handlers. *)
Lemma steps_stopped_quiet (acts : list action) (w : effect_state) (n : nat) :
  cleanup_opened w →
  isStopped w !! n = Some true →
  ∀ name args, Handler n name args ∉ (steps w acts).2.
Proof.
  revert w. induction acts as [|a rest IH]; intros w Hopen Hstopped name args; simpl.
  - apply not_elem_of_nil.
  - destruct (step_spec w a Hopen) as (Hopen1 & Hkeep & Hhandler & _).
    specialize (IH (step w a).1 Hopen1 (Hkeep _ Hstopped) name args).
    destruct (step w a) as [w1 es1]; simpl in *.
    destruct (steps w1 rest) as [w2 es2]; simpl in *.
    intros Hin. apply elem_of_app in Hin as [Hin|Hin]; [|done].
    destruct (Hhandler _ _ _ Hin) as [Hfalse _]. congruence.
Qed.

Lemma quiet_after_teardown (acts : list action) (w : effect_state) (n : nat)
    (before after : list event) :
  cleanup_opened w →
  (steps w acts).2 = (before ++ Unsubscribe n :: after)%list →
  ∀ name args, Handler n name args ∉ after.
Proof.
  revert w before.
  induction acts as [|a rest IH]; intros w before Hopen Htrace name args; simpl in *.
  - by destruct before.
  - destruct (step_spec w a Hopen) as (Hopen1 & _ & Hhandler & Hunsub).
    pose proof (steps_stopped_quiet rest (step w a).1 n Hopen1) as Hquiet.
    specialize (IH (step w a).1).
    destruct (step w a) as [w1 es1]; simpl in *.
    destruct (steps w1 rest) as [w2 es2]; simpl in *.
    apply app_eq_app in Htrace as [l [[-> Hl]|[-> ->]]].
    + destruct l as [|e l]; simpl in Hl.
      * eapply (IH []); [exact Hopen1|]. simpl. by rewrite <- Hl.
      * injection Hl as <- ->.
        assert (Unsubscribe n ∈ (before ++ Unsubscribe n :: l)%list) as Hteardown.
        { apply elem_of_app. right. apply list_elem_of_here. }
        intros Hin. apply elem_of_app in Hin as [Hin|Hin].
        -- eapply (Hhandler n name args); [|exact Hteardown].
           apply elem_of_app. right. by apply list_elem_of_further.
        -- by eapply (Hquiet (Hunsub _ Hteardown)).
    + eapply IH; [exact Hopen1|reflexivity].
Qed.

(** C9: in any run of the effect, after the teardown of a subscription
    (the cleanup run by a re-run of the effect or by the destroy hook)
    none of its handlers is called again, whatever the transport still
    delivers; a handler is only ever called while the flag is unset. *)
Theorem C9_no_handler_after_teardown (acts : list action) (n : nat)
    (before after : list event) :
  (steps effect_init acts).2 = (before ++ Unsubscribe n :: after)%list →
  (∀ name args, Handler n name args ∉ after)
  ∧ (∀ w ev name args,
       Handler n name args ∈ deliver opts n ev w → isStopped w !! n = Some false).
Proof.
  intros Htrace. split.
  - by eapply quiet_after_teardown; [apply cleanup_opened_init|].
  - intros w ev name args Hin. unfold deliver in Hin.
    destruct (isStopped w !! n) as [[|]|]; try (exfalso; by eapply elem_of_nil).
    reflexivity.
Qed.
End SubscriptionFacts.

(** A subscription torn down before the transport confirms its start,
    with the dependencies [createSubscription] gives its effect: the late
    confirmation and the late data reach no handler. *)
Example torn_down_before_start (hashKey : value → string) :
  (steps ["todos"; "watch"] VUndefined (VBool true) (Handlers true true true)
     effect_init
     [AfterUpdate (createSubscription_deps hashKey ["todos"; "watch"] VUndefined VUndefined 0);
      AfterUpdate (createSubscription_deps hashKey ["todos"; "watch"] VUndefined VUndefined 0);
      Destroy;
      Transport 0 Started; Transport 0 (Data (VNum 1))]).2
  = [Subscribe 0 ["todos"; "watch"] VUndefined; Unsubscribe 0].
Proof.
  simpl. unfold deps_changed; simpl. rewrite String.eqb_refl. reflexivity.
Qed.

(** An effect re-run: the superseded subscription is silenced, the new
    one is heard. *)
Lemma C9_superseded_subscription_is_silent :
  (steps ["todos"; "watch"] VUndefined (VBool true) (Handlers true true true)
     effect_init
     [AfterUpdate [Primitive (VStr "key1"); Primitive (VBool true)];
      Transport 0 (Data (VNum 1));
      AfterUpdate [Primitive (VStr "key2"); Primitive (VBool true)];
      Transport 0 (Data (VNum 2));
      Transport 1 (Data (VNum 3))]).2
  = ([Subscribe 0 ["todos"; "watch"] VUndefined; Handler 0 "onData" [VNum 1]]
     ++ Unsubscribe 0
     :: [Subscribe 1 ["todos"; "watch"] VUndefined; Handler 1 "onData" [VNum 3]])%list
  ∧ ∀ name args,
      Handler 0 name args
      ∉ [Subscribe 1 ["todos"; "watch"] VUndefined; Handler 1 "onData" [VNum 3]].
Proof.
  assert (H : (steps ["todos"; "watch"] VUndefined (VBool true)
                 (Handlers true true true) effect_init
                 [AfterUpdate [Primitive (VStr "key1"); Primitive (VBool true)];
                  Transport 0 (Data (VNum 1));
                  AfterUpdate [Primitive (VStr "key2"); Primitive (VBool true)];
                  Transport 0 (Data (VNum 2));
                  Transport 1 (Data (VNum 3))]).2
              = ([Subscribe 0 ["todos"; "watch"] VUndefined;
                  Handler 0 "onData" [VNum 1]]
                 ++ Unsubscribe 0
                 :: [Subscribe 1 ["todos"; "watch"] VUndefined;
                     Handler 1 "onData" [VNum 3]])%list) by reflexivity.
  split; [exact H|].
  exact (proj1 (C9_no_handler_after_teardown _ _ _ _ _ _ _ _ H)).
Defined.

(** * Further properties *)

(** ** Key codec: shape of a key *)

Lemma key_type_of_key (path : list string) (input : value) (type : option QueryType) :
  key_type (getQueryKeyInternal path input type)
  = match type with
    | Some TQuery => VStr "query"
    | Some TInfinite => VStr "infinite"
    | _ => VUndefined
    end.
Proof.
  unfold getQueryKeyInternal.
  destruct (negb (truthy input) && type_is_any type) eqn:Efirst.
  - apply andb_true_iff in Efirst as [_ Hany].
    destruct type as [[]|]; try discriminate Hany;
      destruct (splitPath path); reflexivity.
  - destruct (type_is_infinite type && isObject input
              && (has_prop input "direction" || has_prop input "cursor")) eqn:Einf.
    + destruct type as [[]|]; try discriminate Einf. reflexivity.
    + destruct (is_defined input && negb (is_skipToken input));
        destruct type as [[]|]; reflexivity.
Qed.

Lemma key_options_of_key (path : list string) (input : value) (type : option QueryType) :
  key_options (getQueryKeyInternal path input type) = None
  ↔ truthy input = false ∧ type_is_any type = true.
Proof.
  unfold getQueryKeyInternal.
  destruct (negb (truthy input) && type_is_any type) eqn:Efirst.
  - apply andb_true_iff in Efirst as [Hfalsy Hany].
    apply negb_true_iff in Hfalsy.
    split; [done|]. intros _. by destruct (splitPath path).
  - split.
    + destruct (type_is_infinite type && isObject input
                && (has_prop input "direction" || has_prop input "cursor"));
        intros [=].
    + intros [Hfalsy Hany]. rewrite Hfalsy, Hany in Efirst. discriminate.
Qed.

(** X1: a key has an options element exactly when the input is truthy or
    the type is [query] or [infinite]; its [type] field is the requested
    type, left out for [any] or an omitted type.  So under [any] a falsy
    input ([null], [false], [0], the empty string) gives the key of no
    input, which is the mutation key of the path. *)
Theorem X1_options_element_iff_input_or_type
    (path : list string) (input : value) (type : option QueryType) :
  (key_options (getQueryKeyInternal path input type) = None
     ↔ truthy input = false ∧ type_is_any type = true)
  ∧ key_type (getQueryKeyInternal path input type)
    = match type with
      | Some TQuery => VStr "query"
      | Some TInfinite => VStr "infinite"
      | _ => VUndefined
      end
  ∧ (key_options (getQueryKeyInternal path input type) = None →
     getQueryKeyInternal path input type = getMutationKeyInternal path).
Proof.
  split; [apply key_options_of_key|]. split; [apply key_type_of_key|].
  intros Hnone. apply key_options_of_key in Hnone as [Hfalsy Hany].
  unfold getMutationKeyInternal, getQueryKeyInternal.
  by rewrite Hfalsy, Hany.
Qed.

(** ** Key codec: the input inside a key *)

Lemma key_input_query (path : list string) (input : value) :
  key_input (getQueryKeyInternal path input (Some TQuery)) = without_skipToken input.
Proof.
  unfold getQueryKeyInternal. rewrite andb_false_r. simpl.
  destruct input; reflexivity.
Qed.

Lemma query_keys_equal_iff (p1 p2 : list string) (i1 i2 : value) :
  getQueryKeyInternal p1 i1 (Some TQuery) = getQueryKeyInternal p2 i2 (Some TQuery)
  ↔ splitPath p1 = splitPath p2 ∧ without_skipToken i1 = without_skipToken i2.
Proof.
  split.
  - intros Hkeys. split.
    + unfold getQueryKeyInternal in Hkeys. rewrite !andb_false_r in Hkeys.
      simpl in Hkeys. apply path_value_inj. congruence.
    + rewrite <- (key_input_query p1 i1), <- (key_input_query p2 i2).
      by rewrite Hkeys.
  - intros [Hpath Hinput]. unfold getQueryKeyInternal.
    rewrite !andb_false_r, Hpath. simpl.
    unfold without_skipToken in Hinput.
    destruct i1, i2; simpl in *; try discriminate Hinput; try reflexivity;
      by simplify_eq.
Qed.

(** X2: a key of type [query] carries its input unchanged (the skip
    token as no input), so two such keys are equal exactly when the
    atomic segments and the inputs are. *)
Theorem X2_query_key_carries_input
    (p1 p2 : list string) (i1 i2 : value) :
  key_input (getQueryKeyInternal p1 i1 (Some TQuery)) = without_skipToken i1
  ∧ (getQueryKeyInternal p1 i1 (Some TQuery) = getQueryKeyInternal p2 i2 (Some TQuery)
     ↔ splitPath p1 = splitPath p2 ∧ without_skipToken i1 = without_skipToken i2).
Proof. split; [apply key_input_query|apply query_keys_equal_iff]. Qed.

Lemma infinite_key_of_object (path : list string) (input : gmap string value) :
  getQueryKeyInternal path (VObj input) (Some TInfinite)
  = VArr [path_value (splitPath path);
          VObj {[ "input" := VObj (withoutCursorAndDirection input);
                  "type" := VStr "infinite" ]}].
Proof.
  unfold getQueryKeyInternal, withoutCursorAndDirection; simpl.
  destruct (input !! "direction") eqn:Ed; simpl; [reflexivity|].
  destruct (input !! "cursor") eqn:Ec; simpl; [reflexivity|].
  rewrite (delete_id _ "cursor") by done. rewrite delete_id by done.
  reflexivity.
Qed.

(** X3: under type [infinite] two object inputs have the same key
    exactly when they agree outside [cursor] and [direction]: the state
    of the pagination never splits a cache entry. *)
Theorem X3_infinite_key_ignores_pagination_state
    (path : list string) (m1 m2 : gmap string value) :
  getQueryKeyInternal path (VObj m1) (Some TInfinite)
    = getQueryKeyInternal path (VObj m2) (Some TInfinite)
  ↔ withoutCursorAndDirection m1 = withoutCursorAndDirection m2.
Proof.
  rewrite !infinite_key_of_object. split.
  - intros Hkeys.
    assert (key_input (VArr [path_value (splitPath path);
              VObj {[ "input" := VObj (withoutCursorAndDirection m1);
                      "type" := VStr "infinite" ]}])
            = key_input (VArr [path_value (splitPath path);
              VObj {[ "input" := VObj (withoutCursorAndDirection m2);
                      "type" := VStr "infinite" ]}])) as Hinputs
      by (by rewrite Hkeys).
    by injection Hinputs.
  - by intros ->.
Qed.

(** ** Key codec: atomic segments *)

(** X4: the atomic segments of a path hold no separator, splitting them
    again changes nothing, and a path already cut into its atomic
    segments has the key of the path it came from. *)
Theorem X4_atomic_segments_are_a_fixed_point
    (path : list string) (input : value) (type : option QueryType) :
  Forall (λ segment, dot_free segment = true) (splitPath path)
  ∧ splitPath (splitPath path) = splitPath path
  ∧ getQueryKeyInternal (splitPath path) input type
    = getQueryKeyInternal path input type.
Proof.
  pose proof (splitPath_dot_free path) as Hfree.
  pose proof (splitPath_of_atomic _ Hfree) as Hfix.
  split; [exact Hfree|]. split; [exact Hfix|].
  unfold getQueryKeyInternal. by rewrite Hfix.
Qed.

(** X5: joining separator-free segments with dots and handing the
    result over as one segment is the same as handing over the segments:
    the path is recovered by the split and the key is the same. *)
Theorem X5_dotted_segment_round_trip
    (segment : string) (segments : list string) (input : value)
    (type : option QueryType) :
  Forall (λ s, dot_free s = true) (segment :: segments) →
  splitPath [String.concat "." (segment :: segments)] = segment :: segments
  ∧ getQueryKeyInternal [String.concat "." (segment :: segments)] input type
    = getQueryKeyInternal (segment :: segments) input type.
Proof.
  intros Hfree.
  assert (splitPath [String.concat "." (segment :: segments)] = segment :: segments)
    as Hsplit.
  { change (splitPath [String.concat "." (segment :: segments)])
      with (split_dot (String.concat "." (segment :: segments)) ++ [])%list.
    rewrite split_dot_concat by done. apply app_nil_r. }
  split; [exact Hsplit|].
  unfold getQueryKeyInternal. by rewrite Hsplit, (splitPath_of_atomic _ Hfree).
Qed.

Lemma X5_dotted_segment_witness :
  Forall (λ s, dot_free s = true) ["todos"; "get"]
  ∧ splitPath [String.concat "." ["todos"; "get"]] = ["todos"; "get"].
Proof.
  assert (H : Forall (λ s, dot_free s = true) ["todos"; "get"])
    by (repeat constructor).
  split; [exact H|].
  exact (proj1 (X5_dotted_segment_round_trip "todos" ["get"] VUndefined None H)).
Defined.

(** X6: the atomic segments of a path extended by further segments
    start with the atomic segments of the path, so the first element of
    every key below a router starts with the first element of the
    router's own key. *)
Theorem X6_router_segments_prefix_every_key_below
    (router below : list string) (input : value) (type : option QueryType) :
  splitPath (router ++ below) = (splitPath router ++ splitPath below)%list
  ∧ (getQueryKeyInternal (router ++ below) input type = VArr []
     ∨ ∃ rest,
         getQueryKeyInternal (router ++ below) input type
         = VArr (VArr ((VStr <$> splitPath router) ++ (VStr <$> splitPath below))
                 :: rest)).
Proof.
  split; [apply splitPath_app|].
  destruct (getQueryKeyInternal_shape (router ++ below) input type) as [E|[rest E]];
    [by left|right].
  exists rest. rewrite E. unfold path_value. by rewrite splitPath_app, fmap_app.
Qed.

(** ** Path resolver: what a call can do *)

Lemma own_Some {A} (table : list (string * A)) (key : string) (a : A) :
  own table key = Some a → (key, a) ∈ table.
Proof.
  induction table as [|[k x] table IH]; [discriminate|].
  change (own ((k, x) :: table) key)
    with (if String.eqb k key then Some x else own table key).
  destruct (String.eqb k key) eqn:E.
  - apply String.eqb_eq in E as ->. intros [= ->]. apply list_elem_of_here.
  - intros H. apply list_elem_of_further. by apply IH.
Qed.

Lemma own_procedures_keys (key : string) (p : procedure) :
  own procedures_keys key = Some p ↔ key = Procedure p.
Proof.
  split.
  - intros H. apply own_Some in H. unfold procedures_keys in H.
    apply list_elem_of_fmap in H as (q & [= -> ->] & _). reflexivity.
  - intros ->. by destruct p.
Qed.

Lemma procedures_none (p : procedure) (path : list string) :
  procedures p path = None ↔ path ≠ [] ∧ Procedure p ∈ root_only.
Proof.
  unfold root_only. split.
  - destruct p, path; simpl; try discriminate; intros _; (split; [done|]);
      rewrite !elem_of_cons; auto.
  - intros [Hpath Hin]. destruct path; [done|].
    destruct p; simpl; try reflexivity; exfalso;
      repeat (apply elem_of_cons in Hin as [Hin|Hin]; [discriminate Hin|]);
      by apply elem_of_nil in Hin.
Qed.

Lemma pop_cases (path : list string) :
  (path = [] ∧ pop path = ("", []))
  ∨ ∃ rest key, path = (rest ++ [key])%list ∧ pop path = (key, rest).
Proof.
  induction path as [|key rest _] using rev_ind; [by left|right].
  exists rest, key. split; [reflexivity|]. unfold pop.
  rewrite reverse_snoc. simpl. by rewrite reverse_involutive.
Qed.

Lemma not_root_only (key : string) :
  own procedures_keys key = None ∨ key = "_def" → key ∉ root_only.
Proof.
  intros H Hin. unfold root_only in Hin.
  repeat (apply elem_of_cons in Hin as [->|Hin]; [by destruct H|]).
  by apply elem_of_nil in Hin.
Qed.

(** X7: the [apply] trap, run on a node below the root whose path ends
    in [key], up to the point where it hands the call over to a
    meta-operation.  It throws there exactly when [key] is a root-only
    meta-operation and segments precede it; it writes to the console
    exactly when [key] is neither [_def], nor a meta-operation, nor the
    [opts] helper of one; it never does both.  It hands over exactly
    when [key] names a meta-operation that is not a root-only one off
    the root, and then to that operation, bound at the segments before
    [key], with the arguments of the call; what the operation does with
    them, a throw of its own included, is no part of this. *)
Theorem X7_dispatch_throws_and_logs_exactly_when
    (rest : list string) (key : string) (argList : list value) :
  ((∃ e, outcome (apply (rest ++ [key])%list argList) = Throw e)
     ↔ rest ≠ [] ∧ key ∈ root_only)
  ∧ (trace (apply (rest ++ [key])%list argList) ≠ []
     ↔ key ≠ "_def"
       ∧ own procedures_keys key = None
       ∧ hasOwn_ext (pop rest).1 key = false)
  ∧ ((∃ e, outcome (apply (rest ++ [key])%list argList) = Throw e) →
     trace (apply (rest ++ [key])%list argList) = [])
  ∧ ((∃ p path args,
        outcome (apply (rest ++ [key])%list argList) = Normal (DBound p path args))
     ↔ is_Some (own procedures_keys key) ∧ ¬ (rest ≠ [] ∧ key ∈ root_only))
  ∧ (∀ p path args,
       outcome (apply (rest ++ [key])%list argList) = Normal (DBound p path args) →
       key = Procedure p ∧ path = rest ∧ args = argList).
Proof.
  unfold apply. rewrite pop_snoc.
  destruct (String.eqb key "_def") eqn:Edef.
  { apply String.eqb_eq in Edef as ->. cbn [outcome trace].
    pose proof (not_root_only "_def" (or_intror eq_refl)) as Hnot.
    split; [|split; [|split; [|split]]].
    - split; [intros [e [=]]|tauto].
    - split; [done|]. by intros [? _].
    - done.
    - split; [intros (? & ? & ? & [=])|]. intros [[p Hp] _]. discriminate Hp.
    - intros p path args [=]. }
  apply String.eqb_neq in Edef.
  destruct (own procedures_keys key) as [p|] eqn:Eown.
  - apply own_procedures_keys in Eown as ->.
    destruct (procedures p rest) as [callable|] eqn:Eproc; cbn [outcome trace].
    + assert (callable = p) as ->.
      { destruct p, rest; simpl in Eproc; congruence. }
      assert (¬ (rest ≠ [] ∧ Procedure p ∈ root_only)) as Hon.
      { intros Hoff. apply procedures_none in Hoff. congruence. }
      split; [|split; [|split; [|split]]].
      * split; [intros [e [=]]|done].
      * split; [done|]. by intros (_ & [=] & _).
      * done.
      * split; [|eauto]. intros _. split; [eauto|done].
      * intros q path args [= <- <- <-]. done.
    + apply procedures_none in Eproc. split; [|split; [|split; [|split]]].
      * split; [done|eauto].
      * split; [done|]. by intros (_ & [=] & _).
      * done.
      * split; [intros (? & ? & ? & [=])|]. by intros [_ Hon].
      * intros q path args [=].
  - pose proof (not_root_only key (or_introl Eown)) as Hnot.
    destruct (pop rest) as [proc path2]; cbn [fst snd].
    destruct (hasOwn_ext proc key) eqn:Eext; cbn [outcome trace].
    + split; [|split; [|split; [|split]]].
      * split; [intros [e [=]]|tauto].
      * split; [done|]. by intros (_ & _ & [=]).
      * done.
      * split; [intros (? & ? & ? & [=])|]. by intros [[? [=]] _].
      * intros q path args [=].
    + split; [|split; [|split; [|split]]].
      * split; [intros [e [=]]|tauto].
      * split; [done|]. done.
      * intros [e [=]].
      * split; [intros (? & ? & ? & [=])|]. by intros [[? [=]] _].
      * intros q path args [=].
Qed.

Lemma as_segments_path_value (segments : list string) :
  as_segments (path_value segments) = Some segments.
Proof.
  unfold as_segments, path_value. apply mapM_Some.
  induction segments; constructor; done.
Qed.

Lemma omitted_type_is_any (path : list string) (input : value) :
  getQueryKeyInternal path input None = getQueryKeyInternal path input (Some TAny).
Proof. reflexivity. Qed.

(** X8: the exported [getQueryKey] recovers the path of any node of the
    dispatcher through [_def], silently, and gives the key of that path;
    with no type it gives what the node's own [getQueryKey] gives, since
    an omitted type and [any] make the same key. *)
Theorem X8_getQueryKey_recovers_the_path
    (leaf : list string) (input : value) (type : option QueryType) :
  outcome (apply (nest leaf "_def") []) = Normal (DValue (VObj {[ "path" := path_value leaf ]}))
  ∧ trace (apply (nest leaf "_def") []) = []
  ∧ getQueryKey_of_node leaf input type
    = Some (getQueryKeyInternal leaf input (Some (default TAny type)))
  ∧ outcome (apply (nest leaf "getQueryKey") [input])
    = Normal (DBound PqueryKey leaf [input])
  ∧ getQueryKey_of_node leaf input None = Some (queryKey_procedure leaf input None).
Proof.
  assert (Hdef : apply (nest leaf "_def") []
                 = Applied (Normal (DValue (VObj {[ "path" := path_value leaf ]}))) [] leaf).
  { unfold apply, nest. by rewrite pop_snoc. }
  assert (Hkey : ∀ t, getQueryKey_of_node leaf input t
                      = Some (getQueryKeyInternal leaf input (Some (default TAny t)))).
  { intros t. unfold getQueryKey_of_node. rewrite Hdef. cbn [outcome].
    change (opt_get (VObj {["path" := path_value leaf]}) "path")
      with (default VUndefined
              (({["path" := path_value leaf]} : gmap string value) !! "path")).
    rewrite lookup_singleton_eq.
    change (default VUndefined (Some (path_value leaf))) with (path_value leaf).
    by rewrite as_segments_path_value. }
  rewrite Hdef. cbn [outcome trace].
  split; [reflexivity|]. split; [reflexivity|]. split; [apply Hkey|].
  split; [|apply Hkey].
  unfold apply, nest. by rewrite pop_snoc.
Qed.

(** X9: the [opts] helper of [createQuery], [createInfiniteQuery],
    [createMutation] and [createSubscription] hands back its argument
    and does nothing else; under any other segment [opts] is an
    unhandled call that gives [undefined]. *)
Theorem X9_opts_helper_is_the_identity
    (rest : list string) (proc : string) (argList : list value) :
  outcome (apply (rest ++ [proc; "opts"])%list argList)
  = Normal (DValue
      (if bool_decide (proc ∈ [Procedure Pquery; Procedure PinfiniteQuery;
                               Procedure Pmutate; Procedure Psubscribe])
       then arg 0 argList else VUndefined))
  ∧ (trace (apply (rest ++ [proc; "opts"])%list argList) = []
     ↔ proc ∈ [Procedure Pquery; Procedure PinfiniteQuery;
               Procedure Pmutate; Procedure Psubscribe]).
Proof.
  assert (Hpop : pop (rest ++ [proc; "opts"])%list = ("opts", (rest ++ [proc])%list)).
  { change (rest ++ [proc; "opts"])%list with (rest ++ [proc] ++ ["opts"])%list.
    rewrite app_assoc. apply pop_snoc. }
  unfold apply. rewrite Hpop, pop_snoc.
  change (String.eqb "opts" "_def") with false.
  change (own procedures_keys "opts") with (@None procedure).
  cbn iota.
  assert (Hext : hasOwn_ext proc "opts"
                 = bool_decide (proc ∈ [Procedure Pquery; Procedure PinfiniteQuery;
                                        Procedure Pmutate; Procedure Psubscribe])).
  { unfold hasOwn_ext.
    destruct (own procedureExts proc) as [names|] eqn:Eown.
    - apply own_Some in Eown. unfold procedureExts in Eown.
      rewrite bool_decide_eq_true_2.
      + repeat (apply elem_of_cons in Eown as [[= -> ->]|Eown]; [by vm_compute|]).
        by apply elem_of_nil in Eown.
      + repeat (apply elem_of_cons in Eown as [[= -> ->]|Eown];
                [rewrite !elem_of_cons; auto|]).
        by apply elem_of_nil in Eown.
    - rewrite bool_decide_eq_false_2; [reflexivity|].
      intros Hin.
      repeat (apply elem_of_cons in Hin as [->|Hin]; [discriminate Eown|]).
      by apply elem_of_nil in Hin. }
  rewrite Hext. case_bool_decide as Hin; cbn [outcome trace].
  - split; [|done]. unfold arg. by destruct argList.
  - split; [reflexivity|]. split; [discriminate|done].
Qed.

(** ** Binders: what a call returns *)

Lemma isSvelteStore_cases (v : value) :
  (v = VNull ∧ ∃ e, isSvelteStore v = Throw e)
  ∨ (v ≠ VNull ∧ isSvelteStore v = Normal (negb (plain v))).
Proof. destruct v; simpl; eauto. Qed.

Section BinderKinds.
Variable binder : value → value → completion binding.
Variable static_of : value → value → bool → descriptor.
Variable lazy_of reactive_of : value → value → bool → bool → derived_descriptor.
Variable resolver_of : value → value → bool → bool → value → async unit.

(** The shape the query and the infinite-query binder share. *)
Hypothesis binder_shape : ∀ procedureInput opts,
  binder procedureInput opts
  = cbind (isSvelteStore opts) (λ isOptsStore,
    cbind (isSvelteStore procedureInput) (λ isInputStore,
      if negb isInputStore && negb isOptsStore
         && negb (truthy (opt_get (if isOptsStore then store_get opts else opts) "lazy"))
      then Normal (Static (static_of procedureInput opts isOptsStore))
      else
        Normal (if truthy (opt_get (if isOptsStore then store_get opts else opts) "lazy")
                then LazyPair (lazy_of procedureInput opts isInputStore isOptsStore)
                              (resolver_of procedureInput opts isInputStore isOptsStore)
                else Reactive (reactive_of procedureInput opts isInputStore isOptsStore)))).

Lemma binder_kinds (input opts : value) : result_kinds binder input opts.
Proof.
  unfold result_kinds. rewrite binder_shape.
  destruct (isSvelteStore_cases opts) as [[-> [e ->]]|[Hopts ->]].
  { cbn [cbind]. split; [|split; [|split]]; (split; intros H).
    all: try (by right). all: try (by eexists).
    all: try (by destruct H as (? & [=])). all: try (by destruct H as (? & ? & [=])).
    all: try (by destruct H as (_ & [=] & _)). all: try (by destruct H as (_ & [=])).
    by destruct H as (_ & ? & _). }
  destruct (isSvelteStore_cases input) as [[-> [e ->]]|[Hinput ->]].
  { cbn [cbind]. split; [|split; [|split]]; (split; intros H).
    all: try (by left). all: try (by eexists).
    all: try (by destruct H as (? & [=])). all: try (by destruct H as (? & ? & [=])).
    all: try (by destruct H as ([=] & _)). all: by destruct H as (? & _). }
  cbn [cbind].
  assert ((if negb (plain opts) then store_get opts else opts) = currentOpts_of_opts opts)
    as -> by (by destruct opts).
  assert (Hplain : plain opts = true → currentOpts_of_opts opts = opts)
    by (by destruct opts).
  assert (Hstore : plain opts = false → opt_get opts "lazy" = VUndefined)
    by (by destruct opts).
  destruct (plain input) eqn:Ei, (plain opts) eqn:Eo;
    try rewrite (Hplain eq_refl) in *;
    destruct (truthy (opt_get _ "lazy")) eqn:El;
    cbn [andb negb]; (split; [|split; [|split]]); (split; intros H).
  all: try (by destruct H as (? & [=])). all: try (by destruct H as (? & ? & [=])).
  all: try (by eexists). all: try (by eexists _, _).
  all: try (by destruct H as [?|?]).
  all: try (by destruct H as (? & ? & ?)).
  all: try (by destruct H as (? & ?)).
  all: try done.
  all: try (by destruct H as (_ & _ & [?|?] & _)).
  all: try (split; [done|]; split; [done|]; split; [|done]; by (left + right)).
  all: by destruct H as (_ & _ & _ & [=]).
Qed.
End BinderKinds.

Lemma createQuery_shape (path : list string) (abortOnUnmount : value) :
  ∃ static_of lazy_of reactive_of resolver_of, ∀ procedureInput opts,
  createQuery path abortOnUnmount procedureInput opts
  = cbind (isSvelteStore opts) (λ isOptsStore,
    cbind (isSvelteStore procedureInput) (λ isInputStore,
      if negb isInputStore && negb isOptsStore
         && negb (truthy (opt_get (if isOptsStore then store_get opts else opts) "lazy"))
      then Normal (Static (static_of procedureInput opts isOptsStore))
      else
        Normal (if truthy (opt_get (if isOptsStore then store_get opts else opts) "lazy")
                then LazyPair (lazy_of procedureInput opts isInputStore isOptsStore)
                              (resolver_of procedureInput opts isInputStore isOptsStore)
                else Reactive (reactive_of procedureInput opts isInputStore isOptsStore)))).
Proof. eexists _, _, _, _. intros procedureInput opts. unfold createQuery. reflexivity. Qed.

Lemma createInfiniteQuery_shape (path : list string) (abortOnUnmount : value) :
  ∃ static_of lazy_of reactive_of resolver_of, ∀ procedureInput opts,
  createInfiniteQuery path abortOnUnmount procedureInput opts
  = cbind (isSvelteStore opts) (λ isOptsStore,
    cbind (isSvelteStore procedureInput) (λ isInputStore,
      if negb isInputStore && negb isOptsStore
         && negb (truthy (opt_get (if isOptsStore then store_get opts else opts) "lazy"))
      then Normal (Static (static_of procedureInput opts isOptsStore))
      else
        Normal (if truthy (opt_get (if isOptsStore then store_get opts else opts) "lazy")
                then LazyPair (lazy_of procedureInput opts isInputStore isOptsStore)
                              (resolver_of procedureInput opts isInputStore isOptsStore)
                else Reactive (reactive_of procedureInput opts isInputStore isOptsStore)))).
Proof.
  eexists _, _, _, _. intros procedureInput opts. unfold createInfiniteQuery. reflexivity.
Qed.

(** X10: the query binder and the infinite-query binder throw exactly
    when the input or the options are [null]; they bind statically
    exactly when neither is a store and [lazy] is unset, return the lazy
    pair exactly when [lazy] is set, and bind reactively otherwise. *)
Theorem X10_binder_result_by_arguments
    (path : list string) (abortOnUnmount input opts : value) :
  result_kinds (createQuery path abortOnUnmount) input opts
  ∧ result_kinds (createInfiniteQuery path abortOnUnmount) input opts.
Proof.
  split.
  - destruct (createQuery_shape path abortOnUnmount) as (s & l & r & f & Hshape).
    exact (binder_kinds _ s l r f Hshape input opts).
  - destruct (createInfiniteQuery_shape path abortOnUnmount) as (s & l & r & f & Hshape).
    exact (binder_kinds _ s l r f Hshape input opts).
Qed.

(** ** Binders: the descriptors *)

Lemma createQuery_static (path : list string) (abortOnUnmount input opts : value)
    (d : descriptor) :
  createQuery path abortOnUnmount input opts = Normal (Static d) →
  d = createQueriesProxy_apply path abortOnUnmount input opts.
Proof.
  unfold createQuery. intros Hbound.
  destruct (isSvelteStore opts) as [isOptsStore|] eqn:Eo; [|discriminate].
  destruct (isSvelteStore input) as [isInputStore|] eqn:Ei; [|discriminate].
  cbn [cbind] in Hbound.
  destruct (currentOpts_of _ _ Eo) as [Hcur Hsame]. rewrite Hcur in Hbound.
  destruct (negb isInputStore && negb isOptsStore && negb (truthy (opt_get _ "lazy")))
    eqn:Estatic.
  - injection Hbound as <-.
    rewrite Hsame by (by destruct isInputStore, isOptsStore). reflexivity.
  - destruct (truthy (opt_get _ "lazy")); discriminate.
Qed.

(** X11: a statically bound query carries the options the batch-query
    tree gives for the same path, input and options (the caller's
    options under the key of type [query] of the path and input), and
    its fetch hands [query] the arguments the batch descriptor's fetch
    hands it: the input as it was given and the same call options.
    Which procedure the fetch of the bound query reaches is left open
    here: the binder's closure walks the node's [path] array when it
    runs, and a later call on the same node shortens that array. *)
Theorem X11_static_query_has_the_batch_options_and_arguments
    (path : list string) (abortOnUnmount input opts : value) (d : descriptor) :
  createQuery path abortOnUnmount input opts = Normal (Static d) →
  options d = options (createQueriesProxy_apply path abortOnUnmount input opts)
  ∧ options d !! "queryKey" = Some (getQueryKeyInternal path input (Some TQuery))
  ∧ ∀ ctx, ∃ target callOptions,
      queryFn d ctx = ClientCall target "query" [input; callOptions]
      ∧ queryFn (createQueriesProxy_apply path abortOnUnmount input opts) ctx
        = ClientCall path "query" [input; callOptions].
Proof.
  intros Hbound. apply createQuery_static in Hbound as ->.
  split; [reflexivity|]. split; [apply lookup_insert_eq|].
  intros ctx. do 2 eexists. split; reflexivity.
Qed.

Lemma X11_static_query_witness :
  ∃ d,
    createQuery ["todos"; "get"] VUndefined (VStr "x") (VObj ∅) = Normal (Static d)
    ∧ options d !! "queryKey"
      = Some (getQueryKeyInternal ["todos"; "get"] (VStr "x") (Some TQuery)).
Proof.
  eexists. split; [reflexivity|].
  lazymatch goal with
  | |- options ?d !! _ = _ =>
      assert (Hbound : createQuery ["todos"; "get"] VUndefined (VStr "x") (VObj ∅)
                       = Normal (Static d)) by reflexivity;
      exact (proj1 (proj2 (X11_static_query_has_the_batch_options_and_arguments
                             _ _ _ _ _ Hbound)))
  end.
Defined.




(** ** Cache-control operations *)

Lemma util_call_key (u : util) (path : list string) (args : list value) :
  match asked (utilProcedures_call u path args) with
  | Some call =>
      cache_call_key call
      = Some (if query_shaped u
              then getQueryKeyInternal path (arg 0 args) (Some (getQueryType u))
              else getMutationKeyInternal path)
  | None => u = UgetMutationDefaults
  end.
Proof.
  destruct u; cbn [utilProcedures_call asked cache_call_key query_shaped
                   fetch_descriptor fetchInfinite_descriptor options with_queryKey];
    try reflexivity; try (rewrite lookup_insert_ne by done); apply lookup_insert_eq.
Qed.

(** X13: whatever the caller passes as options or filters (a [queryKey]
    of its own included), every cache-control operation addresses the
    key derived from the path: the key of its first argument under the
    operation's key type, or the mutation key of the path for the
    mutation operations; [getMutationDefaults] alone asks nothing of the
    cache. *)
Theorem X13_cache_operation_addresses_the_derived_key
    (u : util) (path : list string) (args : list value) :
  match asked (utilProcedures_call u path args) with
  | Some call =>
      cache_call_key call
      = Some (if query_shaped u
              then getQueryKeyInternal path (arg 0 args) (Some (getQueryType u))
              else getMutationKeyInternal path)
  | None => u = UgetMutationDefaults
  end
  ∧ (asked (utilProcedures_call u path args) = None ↔ u = UgetMutationDefaults).
Proof.
  split; [apply util_call_key|]. by destruct u.
Qed.

Lemma keys_of_different_types (p1 p2 : list string) (i1 i2 : value) (t1 t2 : QueryType) :
  t1 ≠ t2 →
  getQueryKeyInternal p1 i1 (Some t1) ≠ getQueryKeyInternal p2 i2 (Some t2).
Proof.
  intros Htypes Hkeys.
  assert (key_type (getQueryKeyInternal p1 i1 (Some t1))
          = key_type (getQueryKeyInternal p2 i2 (Some t2))) as H by (by rewrite Hkeys).
  rewrite !key_type_of_key in H. by destruct t1, t2.
Qed.

(** X14: two cache-control operations with different key types never
    address the same key, whatever their paths and arguments: what
    [setData] writes, [getInfiniteData] cannot read. *)
Theorem X14_key_types_keep_cache_entries_apart
    (u1 u2 : util) (p1 p2 : list string) (args1 args2 : list value)
    (call1 call2 : cache_call) :
  query_shaped u1 = true → query_shaped u2 = true →
  getQueryType u1 ≠ getQueryType u2 →
  asked (utilProcedures_call u1 p1 args1) = Some call1 →
  asked (utilProcedures_call u2 p2 args2) = Some call2 →
  cache_call_key call1 ≠ cache_call_key call2.
Proof.
  intros Hq1 Hq2 Htypes Hcall1 Hcall2.
  pose proof (util_call_key u1 p1 args1) as Hk1.
  pose proof (util_call_key u2 p2 args2) as Hk2.
  rewrite Hcall1, Hq1 in Hk1. rewrite Hcall2, Hq2 in Hk2.
  rewrite Hk1, Hk2. intros [= Hkeys].
  by apply keys_of_different_types in Hkeys.
Qed.

Lemma X14_setData_getInfiniteData_witness :
  ∃ call1 call2,
    asked (utilProcedures_call UsetData ["todos"; "get"] [VStr "x"; VNum 1])
    = Some call1
    ∧ asked (utilProcedures_call UgetInfiniteData ["todos"; "get"] [VStr "x"])
      = Some call2
    ∧ cache_call_key call1 ≠ cache_call_key call2.
Proof.
  eexists _, _. split; [reflexivity|]. split; [reflexivity|].
  apply (X14_key_types_keep_cache_entries_apart UsetData UgetInfiniteData
           ["todos"; "get"] ["todos"; "get"] [VStr "x"; VNum 1] [VStr "x"]);
    [reflexivity|reflexivity|discriminate|reflexivity|reflexivity].
Defined.

(** X15: [fetch], [prefetch] and [ensureData] call [query] at the path
    with the input they were given (nothing for the skip token) and the
    caller's [trpc] options, and [getData] and [setData] address the
    key a statically bound query of the same path and input observes. *)
Theorem X15_fetch_forwards_the_input
    (u : util) (path : list string) (input opts : value) (ctx : fetch_context) :
  getQueryType u = TQuery →
  queryFn (fetch_descriptor u path input opts) ctx
    = ClientCall path "query" [without_skipToken input; opt_get opts "trpc"]
  ∧ (∀ more abortOnUnmount d call,
       createQuery path abortOnUnmount input opts = Normal (Static d) →
       asked (utilProcedures_call u path (input :: more)) = Some call →
       cache_call_key call = options d !! "queryKey").
Proof.
  intros Htype. split.
  - unfold fetch_descriptor. cbn [queryFn]. rewrite Htype.
    by rewrite key_input_query.
  - intros more abortOnUnmount d call Hbound Hcall.
    apply createQuery_static in Hbound as ->.
    pose proof (util_call_key u path (input :: more)) as Hkey.
    rewrite Hcall in Hkey. rewrite Hkey.
    assert (query_shaped u = true) as -> by (by destruct u).
    rewrite Htype. symmetry. apply lookup_insert_eq.
Qed.

Lemma X15_fetch_witness :
  getQueryType Ufetch = TQuery
  ∧ queryFn (fetch_descriptor Ufetch ["todos"; "get"] (VStr "x") VUndefined)
            (FetchContext VUndefined VUndefined VUndefined)
    = ClientCall ["todos"; "get"] "query" [VStr "x"; VUndefined].
Proof.
  split; [reflexivity|].
  exact (proj1 (X15_fetch_forwards_the_input Ufetch ["todos"; "get"] (VStr "x")
                  VUndefined (FetchContext VUndefined VUndefined VUndefined) eq_refl)).
Defined.

(** X16: [fetchInfinite] and [prefetchInfinite] never forward the
    caller's own [cursor] or [direction]: an object input reaches the
    procedure without them, with the [direction] of the page request
    and, when the page parameter is truthy, with it as [cursor]. *)
Theorem X16_fetchInfinite_forwards_no_caller_cursor
    (u : util) (path : list string) (input : gmap string value) (opts : value)
    (ctx : fetch_context) :
  getQueryType u = TInfinite →
  ∃ sent,
    queryFn (fetchInfinite_descriptor u path (VObj input) opts) ctx
    = ClientCall path "query" [VObj sent; opt_get opts "trpc"]
    ∧ sent !! "direction" = Some (direction ctx)
    ∧ sent !! "cursor"
      = (if truthy (pageParam ctx) then Some (pageParam ctx) else None)
    ∧ ∀ k, k ≠ "cursor" → k ≠ "direction" → sent !! k = input !! k.
Proof.
  intros Htype. unfold fetchInfinite_descriptor. cbn [queryFn]. rewrite Htype.
  rewrite infinite_key_of_object.
  change (key_input _) with
    (default VUndefined
       (({[ "input" := VObj (withoutCursorAndDirection input);
            "type" := VStr "infinite" ]} : gmap string value) !! "input")).
  rewrite lookup_insert_eq. cbn [default from_option id].
  eexists. split; [reflexivity|]. unfold assign, withoutCursorAndDirection.
  cbn [nullish spread]. split; [apply lookup_insert_eq|]. split.
  - rewrite lookup_insert_ne by done. destruct (truthy (pageParam ctx)).
    + apply lookup_union_Some_l, lookup_singleton_eq.
    + rewrite (left_id_L ∅ (∪)). rewrite lookup_delete_ne by done.
      apply lookup_delete_eq.
  - intros k Hc Hd. rewrite lookup_insert_ne by done.
    destruct (truthy (pageParam ctx)).
    + rewrite lookup_union_r by (by rewrite lookup_singleton_ne).
      by rewrite !lookup_delete_ne.
    + rewrite (left_id_L ∅ (∪)). by rewrite !lookup_delete_ne.
Qed.

Lemma X16_fetchInfinite_witness :
  getQueryType UfetchInfinite = TInfinite
  ∧ ∃ sent,
      queryFn (fetchInfinite_descriptor UfetchInfinite ["todos"; "list"]
                 (VObj {[ "cursor" := VNum 7; "filter" := VStr "x" ]}) VUndefined)
              (FetchContext VNull VUndefined (VStr "forward"))
      = ClientCall ["todos"; "list"] "query" [VObj sent; VUndefined]
      ∧ sent !! "cursor" = None.
Proof.
  split; [reflexivity|].
  destruct (X16_fetchInfinite_forwards_no_caller_cursor UfetchInfinite
              ["todos"; "list"] {[ "cursor" := VNum 7; "filter" := VStr "x" ]}
              VUndefined (FetchContext VNull VUndefined (VStr "forward")) eq_refl)
    as (sent & Hcall & _ & Hcursor & _).
  exists sent. split; [exact Hcall|exact Hcursor].
Defined.

(** ** Binders: cancellation and activation *)

(** X17: the call options of the fetch of a batch-query descriptor (and
    so of a statically bound query) are the caller's [trpc] options,
    with the abort signal of the cache as [signal] exactly when
    abort-on-unmount is on; the caller's [trpc.abortOnUnmount] decides
    when it is given (an explicit [false] included) and the adapter-wide
    default only when it is [null] or absent. *)
Theorem X17_signal_is_forwarded_when_abort_is_on
    (path : list string) (abortOnUnmount input opts : value) (ctx : fetch_context) :
  ∃ callOptions,
    queryFn (createQueriesProxy_apply path abortOnUnmount input opts) ctx
    = ClientCall path "query" [input; VObj callOptions]
    ∧ callOptions !! "signal"
      = (if truthy (nullish (opt_get (opt_get opts "trpc") "abortOnUnmount")
                            abortOnUnmount)
         then Some (signal ctx)
         else spread (opt_get opts "trpc") !! "signal")
    ∧ (∀ k, k ≠ "signal" → callOptions !! k = spread (opt_get opts "trpc") !! k)
    ∧ (opt_get (opt_get opts "trpc") "abortOnUnmount" = VBool false →
       callOptions = spread (opt_get opts "trpc")).
Proof.
  eexists. split; [reflexivity|].
  unfold shouldAbortOnUnmount, assign, js_and.
  destruct (truthy (nullish _ abortOnUnmount)) eqn:Eabort.
  - cbn [spread]. split; [apply lookup_union_Some_l, lookup_singleton_eq|]. split.
    + intros k Hk. apply lookup_union_r. by rewrite lookup_singleton_ne.
    + intros Hoff. rewrite Hoff in Eabort. discriminate Eabort.
  - assert (spread (nullish (opt_get (opt_get opts "trpc") "abortOnUnmount")
                            abortOnUnmount) = ∅) as ->.
    { destruct (nullish _ abortOnUnmount) as [| |[]|n|s| | | | |];
        try discriminate Eabort; try reflexivity.
      simpl in Eabort. apply negb_false_iff, String.eqb_eq in Eabort as ->.
      reflexivity. }
    rewrite (left_id_L ∅ (∪)). repeat split; done.
Qed.

Lemma enabled_option_enabled (enabled : value) (newOpts : value)
    (m : gmap string value) :
  assign m (enabled_option (Some enabled) newOpts) !! "enabled"
  = Some (js_and enabled (nullish (opt_get newOpts "enabled") (VBool true))).
Proof. unfold assign, enabled_option. apply lookup_union_Some_l, lookup_singleton_eq. Qed.

Lemma createQuery_derived (path : list string) (abortOnUnmount input opts : value)
    (b : binding) (q : derived_descriptor) :
  createQuery path abortOnUnmount input opts = Normal b →
  (b = Reactive q ∨ ∃ resolver, b = LazyPair q resolver) →
  ∀ input' opts' enabled',
    options (derive q input' opts' enabled')
    = assign (<["queryKey" := getQueryKeyInternal path (unblank input' input)
                                 (Some TQuery)]>
                (spread (unblank opts' (currentOpts_of_opts opts))))
             (enabled_option enabled' (unblank opts' (currentOpts_of_opts opts))).
Proof.
  unfold createQuery. intros Hbound Hkind.
  destruct (isSvelteStore opts) as [isOptsStore|] eqn:Eo; [|discriminate].
  destruct (isSvelteStore input) as [isInputStore|] eqn:Ei; [|discriminate].
  cbn [cbind] in Hbound.
  destruct (currentOpts_of _ _ Eo) as [Hcur _]. rewrite Hcur in Hbound.
  fold (currentOpts_of_opts opts) in Hbound.
  destruct (negb isInputStore && negb isOptsStore && negb (truthy (opt_get _ "lazy"))).
  - injection Hbound as <-. by destruct Hkind as [?|[? ?]].
  - injection Hbound as <-.
    destruct (truthy (opt_get _ "lazy")); destruct Hkind as [Hq|[r Hq]];
      try discriminate Hq; injection Hq as <-; reflexivity.
Qed.

(** X18: in a lazy query the [enabled] option of every derived
    descriptor is [false] until activation and, once the [enabled] store
    holds [true], the caller's own [enabled] option ([true] without
    one), so a caller's [enabled: false] outlives the activation; a
    reactive query that is not lazy leaves the caller's [enabled]
    untouched. *)
Theorem X18_enabled_option_of_derived_descriptors
    (path : list string) (abortOnUnmount input opts : value)
    (b : binding) (q : derived_descriptor) :
  createQuery path abortOnUnmount input opts = Normal b →
  (b = Reactive q ∨ ∃ resolver, b = LazyPair q resolver) →
  ∀ input' opts',
    options (derive q input' opts' (Some (VBool false))) !! "enabled"
      = Some (VBool false)
    ∧ options (derive q input' opts' (Some (VBool true))) !! "enabled"
      = Some (nullish (opt_get (unblank opts' (currentOpts_of_opts opts)) "enabled")
                      (VBool true))
    ∧ options (derive q input' opts' None) !! "enabled"
      = spread (unblank opts' (currentOpts_of_opts opts)) !! "enabled".
Proof.
  intros Hbound Hkind input' opts'.
  rewrite !(createQuery_derived _ _ _ _ _ _ Hbound Hkind).
  rewrite !enabled_option_enabled. split; [reflexivity|]. split; [reflexivity|].
  unfold assign, enabled_option. rewrite (left_id_L ∅ (∪)).
  by rewrite lookup_insert_ne.
Qed.

Lemma X18_enabled_witness :
  ∃ q resolver,
    createQuery ["todos"; "get"] VUndefined VUndefined
      (VObj {[ "lazy" := VBool true; "enabled" := VBool false ]})
    = Normal (LazyPair q resolver)
    ∧ options (derive q None None (Some (VBool true))) !! "enabled"
      = Some (VBool false).
Proof.
  eexists _, _. split; [reflexivity|].
  lazymatch goal with
  | |- options (derive ?q _ _ _) !! _ = _ =>
      assert (Hbound : createQuery ["todos"; "get"] VUndefined VUndefined
                         (VObj {[ "lazy" := VBool true; "enabled" := VBool false ]})
                       = Normal (LazyPair q
                           (query_resolver
                              (getQueryKeyInternal ["todos"; "get"] VUndefined
                                 (Some TQuery))))) by reflexivity;
      destruct (X18_enabled_option_of_derived_descriptors _ _ _ _ _ q Hbound
                  (or_intror (ex_intro _ _ eq_refl)) None None) as (_ & Hon & _)
  end.
  rewrite Hon. reflexivity.
Defined.

(** ** Cache-control tree: reserved names *)

Section UtilsTree.
Context {Client : Type} (trpcProxyClient : Client).

Lemma createUtilsProxy_get_free (node : list string) (key : string) :
  createUtilsProxy_get trpcProxyClient node key = GotNode (node ++ [key])%list
  ↔ free_segment key = true.
Proof.
  unfold createUtilsProxy_get, free_segment.
  destruct (String.eqb key "client"); [split; discriminate|].
  destruct (own utilProcedures key); split; try discriminate; done.
Qed.

Lemma createUtilsProxy_get_node (node p : list string) (key : string) :
  createUtilsProxy_get trpcProxyClient node key = GotNode p →
  p = (node ++ [key])%list ∧ free_segment key = true.
Proof.
  intros H. assert (p = (node ++ [key])%list) as ->.
  { unfold createUtilsProxy_get in H.
    destruct (String.eqb key "client"); [discriminate|].
    destruct (own utilProcedures key); [discriminate|]. by injection H. }
  split; [reflexivity|]. by apply createUtilsProxy_get_free in H.
Qed.

Lemma utils_access_node (keys node p : list string) :
  utils_access trpcProxyClient node keys = Some (GotNode p)
  ↔ p = (node ++ keys)%list ∧ Forall (λ key, free_segment key = true) keys.
Proof.
  revert node. induction keys as [|key keys IH]; intros node.
  - simpl. rewrite app_nil_r. split; [intros [= <-]; by split|by intros [-> _]].
  - cbn [utils_access]. split.
    + destruct (createUtilsProxy_get trpcProxyClient node key) as [c|u q|q] eqn:Eget.
      * destruct keys; discriminate.
      * destruct keys; discriminate.
      * apply createUtilsProxy_get_node in Eget as [-> Hfree].
        intros H. apply IH in H as [-> Hkeys]. split.
        -- by rewrite <- app_assoc.
        -- by constructor.
    + intros [-> Hkeys]. pose proof (Forall_inv Hkeys) as Hfree.
      apply Forall_inv_tail in Hkeys.
      apply (createUtilsProxy_get_free node) in Hfree. rewrite Hfree.
      apply IH. split; [|done]. by rewrite <- app_assoc.
Qed.

(** X19: the nodes of the utils tree are exactly the chains of segments
    that are neither [client] nor the name of a cache-control operation,
    each at the path of its chain; on such a node the name of an
    operation yields that operation bound to the node's path, so a
    router or procedure with such a name cannot be reached. *)
Theorem X19_utils_nodes_and_reserved_names
    (keys node : list string) (name : string) (u : util) :
  (utils_access trpcProxyClient [] keys = Some (GotNode node)
     ↔ node = keys ∧ Forall (λ key, free_segment key = true) keys)
  ∧ (utils_access trpcProxyClient [] keys = Some (GotNode node) →
     own utilProcedures name = Some u →
     utils_access trpcProxyClient [] (keys ++ [name])%list = Some (GotUtil u node)
     ∧ ∀ more, more ≠ [] →
         utils_access trpcProxyClient [] (keys ++ name :: more)%list = None).
Proof.
  split; [apply (utils_access_node keys [] node)|].
  intros Hnode Hname.
  assert (createUtilsProxy_get trpcProxyClient node name = GotUtil u node) as Hget.
  { unfold createUtilsProxy_get. rewrite Hname.
    destruct (String.eqb name "client") eqn:E; [|reflexivity].
    apply String.eqb_eq in E as ->. discriminate Hname. }
  split.
  - rewrite (utils_access_app _ _ _ _ _ Hnode). cbn [utils_access]. by rewrite Hget.
  - intros more Hmore. rewrite (utils_access_app _ _ _ _ _ Hnode).
    cbn [utils_access]. rewrite Hget. by destruct more.
Qed.
End UtilsTree.

Lemma X19_utils_nodes_witness :
  utils_access 7 [] ["todos"; "get"] = Some (GotNode ["todos"; "get"])
  ∧ own utilProcedures "invalidate" = Some Uinvalidate
  ∧ utils_access 7 [] ["todos"; "get"; "invalidate"]
    = Some (GotUtil Uinvalidate ["todos"; "get"]).
Proof.
  assert (H1 : utils_access 7 [] ["todos"; "get"] = Some (GotNode ["todos"; "get"]))
    by reflexivity.
  assert (H2 : own utilProcedures "invalidate" = Some Uinvalidate) by reflexivity.
  split; [exact H1|]. split; [exact H2|].
  exact (proj1 (proj2 (X19_utils_nodes_and_reserved_names 7 ["todos"; "get"]
                         ["todos"; "get"] "invalidate" Uinvalidate) H1 H2)).
Defined.

(** ** Subscription binder: how often it subscribes *)

Lemma subscriptions_app (a b : list event) :
  subscriptions (a ++ b) = subscriptions a + subscriptions b.
Proof.
  induction a as [|e a IH]; [reflexivity|].
  destruct e; simpl; rewrite IH; reflexivity.
Qed.

Lemma strict_eq_dep_of (address : nat) (v : value) :
  strict_eq (dep_of address v) (dep_of address v) = true.
Proof.
  destruct v; simpl;
    first [reflexivity | apply Nat.eqb_refl | apply Z.eqb_refl
          | apply String.eqb_refl | by destruct b].
Qed.

Lemma deps_changed_pair (a b : dep) :
  strict_eq a a = true → strict_eq b b = true → deps_changed [a; b] [a; b] = false.
Proof. intros Ha Hb. unfold deps_changed. simpl. by rewrite Ha, Hb. Qed.

Section SubscribeOnce.
Variable hashKey : value → string.
Variable path : list string.
Variable procedureInput : value.
Variable opts_enabled : value.
Variable enabled_address : nat.
Variable opts : handlers.

Local Abbreviation deps :=
  (createSubscription_deps hashKey path procedureInput opts_enabled enabled_address).
Local Abbreviation enabled := (nullish opts_enabled (VBool true)).
Local Abbreviation run := (steps path procedureInput enabled opts).

(** A constant is [===] to itself, a primitive by value and an object
    as the same object. *)
Lemma deps_unchanged : deps_changed deps deps = false.
Proof.
  apply deps_changed_pair; [|apply strict_eq_dep_of].
  simpl. apply String.eqb_refl.
Qed.

Lemma deps_changed_first : deps_changed deps [] = true.
Proof. reflexivity. Qed.

(** After the first update the effect never runs its callback again. *)
Lemma settled_opens_nothing (acts : list action) (w : effect_state) :
  values w = deps →
  Forall (λ a, ∀ new_values, a = AfterUpdate new_values → new_values = deps) acts →
  subscriptions (run w acts).2 = 0.
Proof.
  revert w. induction acts as [|a acts IH]; intros w Hvalues Hacts; [reflexivity|].
  pose proof (Forall_inv Hacts) as Ha. apply Forall_inv_tail in Hacts.
  cbn [steps].
  assert (subscriptions (step path procedureInput enabled opts w a).2 = 0
          ∧ values (step path procedureInput enabled opts w a).1 = deps) as [H0 H1].
  { destruct a as [new_values| |n ev]; cbn [step].
    - rewrite (Ha _ eq_refl), Hvalues, deps_unchanged. by split.
    - unfold cleanup_if_any, run_cleanup. by destruct (cleanup w).
    - split; [|exact Hvalues]. unfold deliver.
      destruct (isStopped w !! n) as [[|]|]; try reflexivity.
      by destruct ev, opts as [[|] [|] [|]]. }
  specialize (IH _ H1 Hacts).
  destruct (step path procedureInput enabled opts w a) as [w1 es1].
  cbn [snd fst] in *.
  destruct (run w1 acts) as [w2 es2]. cbn [snd fst] in *.
  rewrite subscriptions_app. lia.
Qed.

Lemma fresh_opens_once (acts : list action) (w : effect_state) :
  values w = [] → cleanup w = None →
  Forall (λ a, ∀ new_values, a = AfterUpdate new_values → new_values = deps) acts →
  subscriptions (run w acts).2
  = if truthy enabled && updated acts then 1 else 0.
Proof.
  revert w. induction acts as [|a acts IH]; intros w Hvalues Hcleanup Hacts.
  - by rewrite andb_false_r.
  - pose proof (Forall_inv Hacts) as Ha. apply Forall_inv_tail in Hacts.
    cbn [steps]. destruct a as [new_values| |n ev].
    + rewrite (Ha _ eq_refl). cbn [step].
      rewrite Hvalues, deps_changed_first.
      unfold effect_apply, cleanup_if_any. rewrite Hcleanup.
      unfold subscribe_cb. cbn [updated existsb]. rewrite orb_true_l, andb_true_r.
      destruct (truthy enabled); cbn [negb fst snd isStopped cleanup app].
      * pose proof (settled_opens_nothing acts
          (EffectState (isStopped w ++ [false]) (Some (length (isStopped w))) deps)
          eq_refl Hacts) as Hrest.
        destruct (run _ acts) as [w2 es2]. cbn [snd] in *. simpl. by rewrite Hrest.
      * pose proof (settled_opens_nothing acts
          (EffectState (isStopped w) None deps) eq_refl Hacts) as Hrest.
        destruct (run _ acts) as [w2 es2]. cbn [snd] in *. simpl. exact Hrest.
    + cbn [step]. unfold cleanup_if_any. rewrite Hcleanup.
      specialize (IH w Hvalues Hcleanup Hacts).
      destruct (run w acts) as [w2 es2]. cbn [snd] in *. exact IH.
    + cbn [step]. specialize (IH w Hvalues Hcleanup Hacts).
      assert (subscriptions (deliver opts n ev w) = 0) as H0.
      { unfold deliver. destruct (isStopped w !! n) as [[|]|]; try reflexivity.
        by destruct ev, opts as [[|] [|] [|]]. }
      destruct (run w acts) as [w2 es2]. cbn [snd] in *.
      rewrite subscriptions_app, H0. exact IH.
Qed.
End SubscribeOnce.

(** X20: the effect of one [createSubscription] call, whose
    dependencies are the hash of the key and the [enabled] option, runs
    its callback at the first update of the component and never again,
    whatever value [enabled] is (an object is the same object at every
    update): over any life of the component it subscribes once if
    [enabled] is truthy and the component was updated, and not at all
    otherwise. *)
Theorem X20_createSubscription_subscribes_at_most_once
    (hashKey : value → string) (path : list string)
    (procedureInput opts_enabled : value) (enabled_address : nat)
    (opts : handlers) (acts : list action) :
  Forall (λ a, ∀ new_values, a = AfterUpdate new_values →
               new_values = createSubscription_deps hashKey path procedureInput
                              opts_enabled enabled_address) acts →
  subscriptions
    (steps path procedureInput (nullish opts_enabled (VBool true)) opts
           effect_init acts).2
  = if truthy (nullish opts_enabled (VBool true)) && updated acts then 1 else 0.
Proof.
  intros Hacts.
  exact (fresh_opens_once hashKey path procedureInput opts_enabled enabled_address
           opts acts effect_init eq_refl eq_refl Hacts).
Qed.

Lemma X20_createSubscription_witness :
  subscriptions
    (steps ["todos"; "watch"] (VNum 1) (nullish (VObj ∅) (VBool true))
       (Handlers true true true) effect_init
       [AfterUpdate (createSubscription_deps (λ _, "h") ["todos"; "watch"]
                       (VNum 1) (VObj ∅) 7);
        Transport 0 (Data (VNum 2));
        AfterUpdate (createSubscription_deps (λ _, "h") ["todos"; "watch"]
                       (VNum 1) (VObj ∅) 7)]).2
  = 1.
Proof.
  rewrite (X20_createSubscription_subscribes_at_most_once (λ _, "h")
             ["todos"; "watch"] (VNum 1) (VObj ∅) 7 (Handlers true true true)).
  - reflexivity.
  - repeat constructor; intros new_values [= <-]; reflexivity.
Defined.

(** ** Subscription binder: one live subscription *)

Section OneLive.
Variable path : list string.
Variable procedureInput : value.
Variable enabled : value.
Variable opts : handlers.

Lemma cleanup_if_any_stops_all (w : effect_state) :
  cleanup_opened w → one_live w →
  cleanup_opened (cleanup_if_any w).1
  ∧ (∀ n, isStopped (cleanup_if_any w).1 !! n ≠ Some false)
  ∧ cleanup (cleanup_if_any w).1 = cleanup w.
Proof.
  intros Hopen Hlive.
  unfold cleanup_if_any. destruct (cleanup w) as [k|] eqn:Ek; cbn [fst run_cleanup].
  - split; [|split].
    + intros n. cbn [cleanup isStopped]. rewrite length_insert. apply Hopen.
    + intros n. cbn [isStopped]. destruct (decide (k = n)) as [->|Hne].
      * rewrite list_lookup_insert_eq by (by apply Hopen). discriminate.
      * rewrite list_lookup_insert_ne by done. intros Hn.
        apply Hlive in Hn. congruence.
    + done.
  - split; [done|]. split; [|done]. intros n Hn. apply Hlive in Hn. congruence.
Qed.

Lemma step_one_live (w : effect_state) (a : action) :
  cleanup_opened w → one_live w →
  cleanup_opened (step path procedureInput enabled opts w a).1
  ∧ one_live (step path procedureInput enabled opts w a).1.
Proof.
  intros Hopen Hlive.
  destruct (cleanup_if_any_stops_all w Hopen Hlive) as (Hopen1 & Hdead & Hsame).
  destruct a as [new_values| |n ev]; cbn [step].
  - destruct (deps_changed new_values (values w)); [|by split].
    unfold effect_apply. destruct (cleanup_if_any w) as [w1 es1]. cbn [fst] in *.
    unfold subscribe_cb. destruct (negb (truthy enabled)); cbn [fst isStopped cleanup].
    + split; [intros n [=]|]. intros n Hn. by apply Hdead in Hn.
    + split.
      * intros n [= <-]. cbn [isStopped]. rewrite length_app. simpl. lia.
      * intros n Hn. cbn [isStopped cleanup] in *.
        apply lookup_app_Some in Hn as [Hn|[Hge Hn]].
        -- by apply Hdead in Hn.
        -- apply list_lookup_singleton_Some in Hn as [Hn _].
           f_equal. lia.
  - split; [exact Hopen1|]. intros n Hn. by apply Hdead in Hn.
  - by split.
Qed.

Lemma steps_one_live (acts : list action) (w : effect_state) :
  cleanup_opened w → one_live w →
  cleanup_opened (steps path procedureInput enabled opts w acts).1
  ∧ one_live (steps path procedureInput enabled opts w acts).1.
Proof.
  revert w. induction acts as [|a acts IH]; intros w Hopen Hlive; [by split|].
  cbn [steps]. destruct (step_one_live w a Hopen Hlive) as [Hopen1 Hlive1].
  specialize (IH _ Hopen1 Hlive1).
  destruct (step path procedureInput enabled opts w a) as [w1 es1].
  cbn [fst] in *.
  destruct (steps path procedureInput enabled opts w1 acts) as [w2 es2].
  exact IH.
Qed.

Lemma steps_snoc (acts : list action) (a : action) (w : effect_state) :
  (steps path procedureInput enabled opts w (acts ++ [a])).1
  = (step path procedureInput enabled opts
       (steps path procedureInput enabled opts w acts).1 a).1.
Proof.
  revert w. induction acts as [|b acts IH]; intros w.
  - cbn [app steps fst].
    by destruct (step path procedureInput enabled opts w a).
  - cbn [app steps]. specialize (IH (step path procedureInput enabled opts w b).1).
    destruct (step path procedureInput enabled opts w b) as [w1 es1].
    cbn [fst] in *.
    destruct (steps path procedureInput enabled opts w1 (acts ++ [a])) as [w2 es2].
    destruct (steps path procedureInput enabled opts w1 acts) as [w3 es3].
    exact IH.
Qed.

(** X21: whatever happens to the component, the effect keeps at most one
    subscription live: each subscription it opened has its flag set,
    except possibly the one its cleanup will tear down; after the
    destroy hook none is live, so whatever the transport delivers
    reaches no handler. *)
Theorem X21_at_most_one_live_subscription
    (acts : list action) (n : nat) (ev : transport_event) :
  (isStopped (steps path procedureInput enabled opts effect_init acts).1 !! n
     = Some false →
   cleanup (steps path procedureInput enabled opts effect_init acts).1 = Some n)
  ∧ deliver opts n ev
      (steps path procedureInput enabled opts effect_init (acts ++ [Destroy])).1 = [].
Proof.
  assert (one_live effect_init) as Hinit by (intros k Hk; discriminate Hk).
  destruct (steps_one_live acts effect_init cleanup_opened_init Hinit)
    as [Hopen Hlive].
  split; [apply Hlive|].
  rewrite steps_snoc. cbn [step].
  destruct (cleanup_if_any_stops_all _ Hopen Hlive) as (_ & Hdead & _).
  unfold deliver. specialize (Hdead n).
  by destruct (isStopped _ !! n) as [[|]|].
Qed.
End OneLive.

(** ** The mock database *)

Lemma findIndex_None (where_id : Z) (l : list MockDb.Todo) :
  MockDb.findIndex where_id l = None ↔ where_id ∉ MockDb.id <$> l.
Proof.
  induction l as [|t l IH]; simpl.
  - split; [intros _; apply not_elem_of_nil|done].
  - destruct (MockDb.id t =? where_id)%Z eqn:E.
    + apply Z.eqb_eq in E. split; [discriminate|].
      intros Hnot. exfalso. apply Hnot. rewrite E. apply list_elem_of_here.
    + apply Z.eqb_neq in E. rewrite not_elem_of_cons.
      destruct (MockDb.findIndex where_id l); simpl.
      * split; [discriminate|]. intros [_ Hnot]. by apply IH in Hnot.
      * split; [|done]. intros _. split; [done|]. by apply IH.
Qed.

Lemma findIndex_Some (where_id : Z) (l : list MockDb.Todo) (i : nat) :
  MockDb.findIndex where_id l = Some i →
  ∃ before t after,
    l = (before ++ t :: after)%list ∧ length before = i ∧ MockDb.id t = where_id
    ∧ where_id ∉ MockDb.id <$> before.
Proof.
  revert i. induction l as [|t l IH]; intros i; simpl; [discriminate|].
  destruct (MockDb.id t =? where_id)%Z eqn:E.
  - apply Z.eqb_eq in E. intros [= <-]. exists [], t, l.
    repeat split; try done. apply not_elem_of_nil.
  - apply Z.eqb_neq in E.
    destruct (MockDb.findIndex where_id l) as [j|]; [|discriminate].
    intros [= <-]. destruct (IH j eq_refl) as (before & t' & after & -> & <- & Hid & Hnot).
    exists (t :: before), t', after. repeat split; try done.
    rewrite fmap_cons, not_elem_of_cons. by split.
Qed.

Lemma ids_ok_initial : MockDb.ids_ok MockDb.initial.
Proof.
  split.
  - simpl. repeat (apply NoDup_cons; split; [set_solver|]). apply NoDup_nil_2.
  - repeat constructor.
Qed.

Lemma create_ids_ok (data_text : string) (s : MockDb.state) :
  MockDb.ids_ok s → MockDb.ids_ok (MockDb.create data_text s).2.
Proof.
  intros [Hnodup Hbelow]. split; simpl.
  - rewrite fmap_app. apply NoDup_app. split; [done|]. split.
    + intros x Hx Hk. apply list_elem_of_singleton in Hk as ->.
      apply list_elem_of_fmap in Hx as (t & Hid & Ht).
      rewrite Forall_forall in Hbelow. apply Hbelow in Ht. simpl in Hid. lia.
    + apply NoDup_singleton.
  - apply Forall_app. split.
    + eapply Forall_impl; [exact Hbelow|]. intros t Ht. simpl in *. lia.
    + constructor; [simpl; lia|constructor].
Qed.

Lemma update_ids (where_id : Z) (data : MockDb.TodoData) (s : MockDb.state) :
  MockDb.id <$> MockDb.todos (MockDb.update where_id data s).2
  = MockDb.id <$> MockDb.todos s
  ∧ MockDb.nextId (MockDb.update where_id data s).2 = MockDb.nextId s.
Proof.
  unfold MockDb.update.
  destruct (MockDb.findIndex where_id (MockDb.todos s)) as [i|]; [|done].
  destruct (MockDb.todos s !! i) as [t|] eqn:Et; [|done]. simpl. split; [|done].
  rewrite list_fmap_insert. apply list_insert_id.
  rewrite list_lookup_fmap, Et. reflexivity.
Qed.

Lemma update_ids_ok (where_id : Z) (data : MockDb.TodoData) (s : MockDb.state) :
  MockDb.ids_ok s → MockDb.ids_ok (MockDb.update where_id data s).2.
Proof.
  intros [Hnodup Hbelow]. destruct (update_ids where_id data s) as [Hids Hnext].
  split; [by rewrite Hids|].
  rewrite Forall_forall in Hbelow. rewrite Forall_forall. intros t Ht.
  rewrite Hnext.
  assert (MockDb.id t ∈ MockDb.id <$> MockDb.todos s) as Hin.
  { rewrite <- Hids. apply list_elem_of_fmap. eauto. }
  apply list_elem_of_fmap in Hin as (t0 & -> & Ht0). by apply Hbelow.
Qed.

Lemma delete_ids_ok (where_id : Z) (s : MockDb.state) :
  MockDb.ids_ok s → MockDb.ids_ok (MockDb.delete where_id s).2.
Proof.
  intros [Hnodup Hbelow]. unfold MockDb.delete.
  destruct (MockDb.findIndex where_id (MockDb.todos s)) as [i|]; [|done].
  split; simpl.
  - rewrite list_fmap_delete. eapply sublist_NoDup; [exact Hnodup|apply sublist_delete].
  - by apply Forall_delete.
Qed.

Lemma perform_ids_ok (s : MockDb.state) (c : MockDb.call) :
  MockDb.ids_ok s → MockDb.ids_ok (MockDb.perform s c).
Proof.
  intros Hok. destruct c; simpl.
  - by apply create_ids_ok.
  - by apply update_ids_ok.
  - by apply delete_ids_ok.
  - apply ids_ok_initial.
Qed.

Lemma ids_ok_always (calls : list MockDb.call) :
  MockDb.ids_ok (foldl MockDb.perform MockDb.initial calls).
Proof.
  induction calls as [|c calls IH] using rev_ind; [apply ids_ok_initial|].
  rewrite foldl_app. simpl. by apply perform_ids_ok.
Qed.

(** X22: after any sequence of [create], [update], [delete] and
    [resetDb] calls from the initial state, the ids of the todos are
    pairwise different and below [nextId]; so the todo the next [create]
    returns has an id no stored todo has. *)
Theorem X22_ids_stay_unique (calls : list MockDb.call) (data_text : string) :
  MockDb.ids_ok (foldl MockDb.perform MockDb.initial calls)
  ∧ MockDb.id (MockDb.create data_text (foldl MockDb.perform MockDb.initial calls)).1
    ∉ MockDb.id <$> MockDb.todos (foldl MockDb.perform MockDb.initial calls)
  ∧ MockDb.done (MockDb.create data_text (foldl MockDb.perform MockDb.initial calls)).1
    = false.
Proof.
  pose proof (ids_ok_always calls) as [Hnodup Hbelow].
  split; [by split|]. split; [|reflexivity].
  simpl. intros Hin. apply list_elem_of_fmap in Hin as (t & Hid & Ht).
  rewrite Forall_forall in Hbelow. apply Hbelow in Ht. lia.
Qed.

Lemma filter_all {A} (P : A → Prop) `{∀ x, Decision (P x)} (l : list A) :
  Forall P l → filter P l = l.
Proof.
  induction 1 as [|x l Hx _ IH]; [reflexivity|].
  by rewrite filter_cons_True, IH.
Qed.

(** X23: [delete] on a state with unique ids removes the todo with the
    id and nothing else, and returns it; without such a todo it returns
    nothing and leaves the state as it is. *)
Theorem X23_delete_removes_exactly_the_todo (where_id : Z) (s : MockDb.state) :
  NoDup (MockDb.id <$> MockDb.todos s) →
  MockDb.todos (MockDb.delete where_id s).2
    = filter (λ t, MockDb.id t ≠ where_id) (MockDb.todos s)
  ∧ MockDb.nextId (MockDb.delete where_id s).2 = MockDb.nextId s
  ∧ match (MockDb.delete where_id s).1 with
    | Some t => MockDb.id t = where_id ∧ t ∈ MockDb.todos s
    | None => where_id ∉ MockDb.id <$> MockDb.todos s
              ∧ (MockDb.delete where_id s).2 = s
    end.
Proof.
  intros Hnodup. unfold MockDb.delete.
  destruct (MockDb.findIndex where_id (MockDb.todos s)) as [i|] eqn:Efind.
  - apply findIndex_Some in Efind as (before & t & after & Hl & <- & Hid & Hbefore).
    rewrite Hl in *. simpl. rewrite delete_middle.
    rewrite list_lookup_middle by done.
    rewrite fmap_app, fmap_cons in Hnodup.
    apply NoDup_app in Hnodup as (_ & Hdisjoint & Hrest).
    apply NoDup_cons in Hrest as [Hafter _]. rewrite Hid in Hafter.
    split; [|split; [done|]].
    + rewrite filter_app, filter_cons_False by (intros H; by apply H).
      rewrite !filter_all; [done| |].
      * apply Forall_forall. intros x Hx Hxid. apply Hafter.
        apply list_elem_of_fmap. eauto.
      * apply Forall_forall. intros x Hx Hxid. apply Hbefore.
        apply list_elem_of_fmap. eauto.
    + split; [done|]. apply elem_of_app. right. apply list_elem_of_here.
  - simpl. apply findIndex_None in Efind. split; [|split; [done|by split]].
    symmetry. apply filter_all, Forall_forall. intros x Hx Hxid.
    apply Efind, list_elem_of_fmap. eauto.
Qed.

Lemma X23_delete_witness :
  NoDup (MockDb.id <$> MockDb.todos MockDb.initial)
  ∧ MockDb.id <$> MockDb.todos (MockDb.delete 2 MockDb.initial).2 = [1; 3; 4]%Z.
Proof.
  pose proof (proj1 ids_ok_initial) as H. split; [exact H|].
  rewrite (proj1 (X23_delete_removes_exactly_the_todo 2 MockDb.initial H)).
  reflexivity.
Defined.

(** X24: [update] changes the first todo with the id and no other: the
    ids and the counter stay, the todo it returns carries the id and
    the given fields over the old ones, and every todo with another id
    stays where it is; without a todo of that id it returns nothing and
    leaves the state as it is. *)
Theorem X24_update_changes_only_the_todo
    (where_id : Z) (data : MockDb.TodoData) (s : MockDb.state) :
  MockDb.id <$> MockDb.todos (MockDb.update where_id data s).2
    = MockDb.id <$> MockDb.todos s
  ∧ MockDb.nextId (MockDb.update where_id data s).2 = MockDb.nextId s
  ∧ (∀ j x, MockDb.todos s !! j = Some x → MockDb.id x ≠ where_id →
            MockDb.todos (MockDb.update where_id data s).2 !! j = Some x)
  ∧ match (MockDb.update where_id data s).1 with
    | Some updated =>
        updated ∈ MockDb.todos (MockDb.update where_id data s).2
        ∧ ∃ old, old ∈ MockDb.todos s ∧ MockDb.id old = where_id
                 ∧ updated = MockDb.merge old data
    | None => where_id ∉ MockDb.id <$> MockDb.todos s
              ∧ (MockDb.update where_id data s).2 = s
    end.
Proof.
  destruct (update_ids where_id data s) as [Hids Hnext].
  split; [exact Hids|]. split; [exact Hnext|].
  unfold MockDb.update.
  destruct (MockDb.findIndex where_id (MockDb.todos s)) as [i|] eqn:Efind.
  - apply findIndex_Some in Efind as (before & t & after & Hl & <- & Hid & Hbefore).
    rewrite Hl. rewrite list_lookup_middle by done. simpl. split.
    + intros j x Hj Hx. destruct (decide (length before = j)) as [<-|Hne].
      * rewrite list_lookup_middle in Hj by done. injection Hj as <-. done.
      * by rewrite list_lookup_insert_ne.
    + split.
      * apply list_elem_of_lookup. exists (length before).
        apply list_lookup_insert_eq. rewrite length_app. simpl. lia.
      * exists t. split; [|done]. apply elem_of_app. right. apply list_elem_of_here.
  - simpl. apply findIndex_None in Efind. split; [done|by split].
Qed.

Lemma findIndex_last (where_id : Z) (l : list MockDb.Todo) (t : MockDb.Todo) :
  where_id ∉ MockDb.id <$> l → MockDb.id t = where_id →
  MockDb.findIndex where_id (l ++ [t]) = Some (length l).
Proof.
  intros Hnot Hid. induction l as [|x l IH]; simpl.
  - by rewrite (proj2 (Z.eqb_eq _ _) Hid).
  - rewrite fmap_cons, not_elem_of_cons in Hnot. destruct Hnot as [Hx Hl].
    rewrite (proj2 (Z.eqb_neq _ _)) by done. by rewrite IH.
Qed.

(** X25: on a state whose ids are below [nextId], deleting the todo
    that [create] has just returned gives that todo back and restores
    the list of todos; the counter stays advanced, so the id is not
    handed out again. *)
Theorem X25_create_then_delete_restores_the_todos
    (data_text : string) (s : MockDb.state) :
  Forall (λ t, (MockDb.id t < MockDb.nextId s)%Z) (MockDb.todos s) →
  MockDb.delete (MockDb.id (MockDb.create data_text s).1)
                (MockDb.create data_text s).2
  = (Some (MockDb.create data_text s).1,
     MockDb.State (MockDb.todos s) (MockDb.nextId s + 1))
  ∧ MockDb.findMany None (MockDb.create data_text s).2
    = (MockDb.todos s ++ [MockDb.mkTodo (MockDb.nextId s) data_text false])%list.
Proof.
  intros Hbelow. split; [|reflexivity].
  unfold MockDb.create, MockDb.delete. cbn [fst snd MockDb.id MockDb.todos MockDb.nextId].
  rewrite findIndex_last; [| |reflexivity].
  - rewrite list_lookup_middle by done.
    by rewrite (delete_middle (MockDb.todos s) []), app_nil_r.
  - intros Hin. apply list_elem_of_fmap in Hin as (t & Hid & Ht).
    rewrite Forall_forall in Hbelow. apply Hbelow in Ht. lia.
Qed.

Lemma X25_create_then_delete_witness :
  Forall (λ t, (MockDb.id t < MockDb.nextId MockDb.initial)%Z)
         (MockDb.todos MockDb.initial)
  ∧ MockDb.delete 5 (MockDb.create "Write the proof" MockDb.initial).2
    = (Some (MockDb.mkTodo 5 "Write the proof" false),
       MockDb.State MockDb.seed 6).
Proof.
  pose proof (proj2 ids_ok_initial) as H. split; [exact H|].
  exact (proj1 (X25_create_then_delete_restores_the_todos "Write the proof"
                  MockDb.initial H)).
Defined.

(** ** The example application *)

Lemma double_round_exact (n : Z) :
  (Z.abs n ≤ 2 ^ 53)%Z → Router.double_round n = n.
Proof.
  intros Hn. unfold Router.double_round.
  by rewrite (proj2 (Z.leb_le _ _) Hn).
Qed.

(** Rounding moves an integer by less than its own magnitude. *)
Lemma double_round_bound (n : Z) :
  (Z.abs (Router.double_round n) ≤ 2 * Z.abs n)%Z.
Proof.
  unfold Router.double_round.
  destruct (Z.abs n <=? 2 ^ 53)%Z eqn:Esmall; [lia|].
  apply Z.leb_gt in Esmall.
  remember (Z.abs n) as a eqn:Ea.
  assert (0 < a)%Z as Hpos by lia.
  destruct (Z.log2_spec a Hpos) as [Hlow _].
  assert (52 < Z.log2 a)%Z as Hlog.
  { assert (53 ≤ Z.log2 a)%Z; [|lia]. apply Z.log2_le_pow2; lia. }
  set (ulp := (2 ^ (Z.log2 a - 52))%Z).
  assert (0 < ulp)%Z as Hulp by (apply Z.pow_pos_nonneg; lia).
  assert (ulp ≤ a)%Z as Hle.
  { etransitivity; [|exact Hlow]. apply Z.pow_le_mono_r; lia. }
  pose proof (Z.mul_div_le a ulp Hulp) as Hq.
  assert (0 ≤ a / ulp)%Z as Hq0 by (apply Z.div_pos; lia).
  rewrite Z.abs_mul. replace (Z.abs (Z.sgn n)) with 1%Z by lia.
  destruct (_ || _); rewrite Z.abs_eq by nia; nia.
Qed.

Lemma number_add_safe (a b : Z) :
  (Z.abs a ≤ 2 ^ 53)%Z → (Z.abs b ≤ 2 ^ 53)%Z →
  Router.number_add a b = Some (Router.double_round (a + b)).
Proof.
  intros Ha Hb. unfold Router.number_add.
  pose proof (double_round_bound (a + b)) as Hbound.
  assert (Z.abs (Router.double_round (a + b)) <? 2 ^ 1024 = true)%Z as ->;
    [|reflexivity].
  apply Z.ltb_lt.
  assert (2 * Z.abs (a + b) ≤ 2 ^ 55)%Z as Hsum by lia.
  assert (2 ^ 55 < 2 ^ 1024)%Z as Hbig by reflexivity.
  lia.
Qed.

(** X26: a page request of the infinite-query binder, validated and
    answered by [todos.getPopular], for a page parameter and a limit
    that are integers of magnitude up to [2^53].  The window starts at
    the page parameter, and at [0] for the first page, whose parameter
    is [null]; a page parameter [0] is dropped by the binder and
    restored by the procedure's default.  The cursor returned is the
    end of the window as a double: exactly [start + limit] while that
    stays within [2^53], so that the next page starts where this one
    stops, and rounded beyond. *)
Theorem X26_popular_window_starts_at_the_page_parameter
    (input : value) (ctx : fetch_context) (page : option Z) (limit : option Z) :
  spread (nullish input (VObj ∅)) !! "cursor" = None →
  Router.optional_number (spread (nullish input (VObj ∅)) !! "limit") = Some limit →
  pageParam ctx = from_option VNum VNull page →
  (Z.abs (default 0 page) ≤ 2 ^ 53)%Z →
  (Z.abs (default 10 limit) ≤ 2 ^ 53)%Z →
  Router.getPopular (actualInput input ctx)
  = Some (Router.Popular (default 0%Z page) (default 10%Z limit)
            (Some (Router.double_round (default 0 page + default 10 limit)%Z)))
  ∧ ((Z.abs (default 0 page + default 10 limit) ≤ 2 ^ 53)%Z →
     Router.double_round (default 0 page + default 10 limit)%Z
     = (default 0 page + default 10 limit)%Z).
Proof.
  intros Hcursor Hlimit Hpage Hstart Hlim. split; [|apply double_round_exact].
  rewrite <- (number_add_safe _ _ Hstart Hlim).
  unfold actualInput, assign, Router.getPopular. rewrite Hpage.
  rewrite !lookup_insert_ne by done.
  destruct page as [n|]; cbn [from_option truthy].
  - destruct (decide (n = 0%Z)) as [->|Hn].
    + cbn [Z.eqb negb]. rewrite (left_id_L ∅ (∪)), Hcursor, Hlimit. reflexivity.
    + rewrite (proj2 (Z.eqb_neq n 0) Hn). cbn [negb].
      rewrite (lookup_union_Some_l _ _ _ (VNum n)) by apply lookup_singleton_eq.
      rewrite lookup_union_r by (by rewrite lookup_singleton_ne).
      rewrite Hlimit. reflexivity.
  - rewrite (left_id_L ∅ (∪)), Hcursor, Hlimit. reflexivity.
Qed.

(** The first page, the page after it, and a page at [2^53], where the
    cursor returned no longer moves. *)
Lemma X26_popular_window_witness :
  Router.getPopular
    (actualInput (VObj ∅) (FetchContext (VNum 0) VUndefined (VStr "forward")))
  = Some (Router.Popular 0 10 (Some 10%Z))
  ∧ Router.getPopular
      (actualInput (VObj ∅) (FetchContext (VNum 10) VUndefined (VStr "forward")))
    = Some (Router.Popular 10 10 (Some 20%Z))
  ∧ Router.getPopular
      (actualInput (VObj {[ "limit" := VNum 1 ]})
                   (FetchContext (VNum (2 ^ 53)) VUndefined (VStr "forward")))
    = Some (Router.Popular (2 ^ 53) 1 (Some (2 ^ 53)%Z)).
Proof.
  split; [|split].
  - exact (proj1 (X26_popular_window_starts_at_the_page_parameter (VObj ∅)
             (FetchContext (VNum 0) VUndefined (VStr "forward")) (Some 0%Z) None
             eq_refl eq_refl eq_refl ltac:(vm_compute; discriminate)
             ltac:(vm_compute; discriminate))).
  - exact (proj1 (X26_popular_window_starts_at_the_page_parameter (VObj ∅)
             (FetchContext (VNum 10) VUndefined (VStr "forward")) (Some 10%Z) None
             eq_refl eq_refl eq_refl ltac:(vm_compute; discriminate)
             ltac:(vm_compute; discriminate))).
  - exact (proj1 (X26_popular_window_starts_at_the_page_parameter
             (VObj {[ "limit" := VNum 1 ]})
             (FetchContext (VNum (2 ^ 53)) VUndefined (VStr "forward"))
             (Some (2 ^ 53)%Z) (Some 1%Z)
             eq_refl eq_refl eq_refl ltac:(vm_compute; discriminate)
             ltac:(vm_compute; discriminate))).
Defined.

Lemma calls_cached (queryClients : list value) (s : Client.state) (w : Client.wrapper) :
  Client.browserSvelteQueryWrapperClient s = Some w →
  Client.calls true queryClients s = (replicate (length queryClients) w, s).
Proof.
  intros Hcached. induction queryClients as [|q rest IH]; [reflexivity|].
  cbn [Client.calls]. unfold Client.trpc. rewrite Hcached, IH. reflexivity.
Qed.

Lemma calls_server (queryClients : list value) (s : Client.state) (c : nat) :
  Client.rawTrpcClient s = Some c →
  (Client.calls false queryClients s).1
  = imap (λ i q, Client.Wrapper (Client.wrappers s + i) c q) queryClients
  ∧ Client.clients (Client.calls false queryClients s).2 = Client.clients s.
Proof.
  revert s. induction queryClients as [|q rest IH]; intros s Hraw; [done|].
  cbn [Client.calls]. unfold Client.trpc, Client.getTrpcClient. rewrite Hraw.
  cbn zeta iota beta.
  match goal with |- context [Client.calls false rest ?s'] =>
    destruct (IH s' Hraw) as [IHw IHc];
    destruct (Client.calls false rest s') as [ws s''] eqn:E end.
  simpl in *. split; [|exact IHc]. rewrite IHw, Nat.add_0_r. f_equal.
  apply imap_ext. intros i x _. simpl. f_equal. lia.
Qed.

(** X27: in the browser every call of [trpc] returns the wrapper the
    first call built, whatever [queryClient] the later calls pass; on
    the server every call builds a wrapper of its own around its
    [queryClient], and all of them share one tRPC client.  Either way
    at most one tRPC client is constructed. *)
Theorem X27_trpc_wrapper_and_client_are_shared
    (browser : bool) (queryClients : list value) :
  (Client.calls browser queryClients Client.initial).1
  = (if browser
     then replicate (length queryClients)
                    (Client.Wrapper 0 0 (default VUndefined (head queryClients)))
     else imap (λ i q, Client.Wrapper i 0 q) queryClients)
  ∧ Client.clients (Client.calls browser queryClients Client.initial).2
    = (if queryClients is [] then 0 else 1).
Proof.
  destruct queryClients as [|q rest]; [by destruct browser|].
  destruct browser.
  - cbn [Client.calls]. unfold Client.trpc, Client.getTrpcClient. simpl.
    rewrite (calls_cached rest _ (Client.Wrapper 0 0 q)) by reflexivity.
    done.
  - cbn [Client.calls]. unfold Client.trpc, Client.getTrpcClient.
    cbn [Client.rawTrpcClient Client.browserSvelteQueryWrapperClient
         Client.clients Client.wrappers Client.initial].
    cbn zeta iota beta.
    match goal with |- context [Client.calls false rest ?s'] =>
      destruct (calls_server rest s' 0 eq_refl) as [Hw Hc];
      destruct (Client.calls false rest s') as [ws s''] eqn:E end.
    simpl in *. split; [|exact Hc]. by rewrite Hw.
Qed.
